(** * Maze runner: grid builder, breadth-first solver and interactive cursor

    A shallow embedding of [src/components/maze-runner.tsx].  The React
    component keeps its data in [useState] cells; here they are the fields of
    the record [State], every handler is a function on that record, and the
    suspended calls of the asynchronous [animatePath] are kept next to it in a
    [Session].  JavaScript's [TypeError] (indexing into [undefined]) is an
    explicit outcome. *)

From stdpp Require Import base list strings.
From Stdlib Require Import Ascii Lia.

(** ** Data model *)

(** [type: 'wall' | 'path' | 'start' | 'end'] *)
Inductive CellType := Wall | Path | Start | End.

#[global] Instance CellType_eq_dec : EqDecision CellType.
Proof. solve_decision. Defined.

(** [type Cell = { x: number; y: number; type: ... }].  The coordinates are
    array indices handed out by [Array.prototype.map], hence naturals. *)
Record Cell := mkCell { x : nat; y : nat; type : CellType }.

#[global] Instance Cell_eq_dec : EqDecision Cell.
Proof. solve_decision. Defined.

(** [type Direction = 'up' | 'down' | 'left' | 'right'] *)
Inductive Direction := Up | Down | Left | Right.

#[global] Instance Direction_eq_dec : EqDecision Direction.
Proof. solve_decision. Defined.

(** [moveKeys = { up, down, left, right }], each a string typed into an input
    field of [maxLength] 1 (so possibly empty). *)
Module moveKeys.
Record t := mk { up : string; down : string; left : string; right : string }.
End moveKeys.

(** The [useState] cells of [MazeRunnerComponent] that the core reads or
    writes.  [end] is reserved in Rocq, the field is [end_]. *)
Record State := mkState {
  maze : list string;
  mazeGrid : list (list Cell);
  start : option Cell;
  end_ : option Cell;
  currentPos : option Cell;
  wallSymbol : string;
  pathSymbol : string;
  startSymbol : string;
  endSymbol : string;
  moveKeys : moveKeys.t;
  isAnimating : bool;
  solutionMoves : string;
  isMazeGenerated : bool
}.

(** The initial values passed to [useState]. *)
Definition initialState : State :=
  {| maze := []; mazeGrid := []; start := None; end_ := None;
     currentPos := None;
     wallSymbol := "#"; pathSymbol := "."; startSymbol := "P"; endSymbol := "E";
     moveKeys := moveKeys.mk "w" "s" "a" "d";
     isAnimating := false; solutionMoves := EmptyString;
     isMazeGenerated := false |}.

(** ** JavaScript outcomes *)

(** A computation either yields a value or throws a [TypeError] (reading a
    property of [undefined]). *)
Inductive js (A : Type) := Val (a : A) | TypeError.
Arguments Val {A} a.
Arguments TypeError {A}.

#[global] Instance js_ret : MRet js := fun _ a => Val a.
#[global] Instance js_bind : MBind js := fun _ _ f m =>
  match m with Val a => f a | TypeError => TypeError end.

(** [g[i][j]]: [g[i]] being [undefined] throws; a missing [j] gives
    [undefined], here [None]. *)
Definition index2 {A} (g : list (list A)) (i j : nat) : js (option A) :=
  match g !! i with
  | None => TypeError
  | Some row => Val (row !! j)
  end.

(** [a[i] = v] on a JavaScript array: inside the array it overwrites, past
    the end it grows the array, the skipped slots being holes that read as
    the falsy [undefined] ([hole]). *)
Definition js_set {A} (hole : A) (a : list A) (i : nat) (v : A) : list A :=
  if decide (i < length a) then <[i:=v]> a
  else a ++ replicate (i - length a) hole ++ [v].

(** [for (const a of l) body], with the loop's variables as the state. *)
Fixpoint for_of {A S} (body : A → S → js S) (l : list A) (s : S) : js S :=
  match l with
  | [] => Val s
  | a :: l' => s' ← body a s; for_of body l' s'
  end.

(** ** Strings *)

(** [row.split('')] *)
Definition split_chars (row : string) : list ascii := String.list_ascii_of_string row.

(** A one-character JavaScript string. *)
Definition char_string (ch : ascii) : string := String ch EmptyString.

(** The characters of a string are the code units U+0000 to U+00FF.  Among
    these the letters that have a lower-case form are A to Z (65 to 90) and
    the accented capitals U+00C0 to U+00DE without the multiplication sign
    U+00D7; the lower-case form of each is 32 above it, and no other code
    unit of the range is changed by [toLowerCase]. *)
Definition lower_char (ch : ascii) : ascii :=
  let n := nat_of_ascii ch in
  if ((65 <=? n) && (n <=? 90))
     || ((192 <=? n) && (n <=? 222) && negb (n =? 215))
  then ascii_of_nat (n + 32) else ch.

(** [s.toLowerCase()] *)
Fixpoint toLowerCase (s : string) : string :=
  match s with
  | EmptyString => EmptyString
  | String ch s' => String (lower_char ch) (toLowerCase s')
  end.

(** [moves.join('')] *)
Definition join (l : list string) : string := String.concat EmptyString l.

(** ** Grid builder (the [useEffect] on lines 113-130) *)

(** [cell === wallSymbol ? 'wall' : cell === startSymbol ? 'start'
      : cell === endSymbol ? 'end' : 'path'] *)
Definition classify (wallS startS endS : string) (ch : ascii) : CellType :=
  if String.eqb (char_string ch) wallS then Wall
  else if String.eqb (char_string ch) startS then Start
  else if String.eqb (char_string ch) endS then End
  else Path.

(** [maze.map((row, y) => row.split('').map((cell, x) => ({x, y, type})))] *)
Definition buildGrid (wallS startS endS : string) (m : list string)
  : list (list Cell) :=
  imap (fun j row =>
          imap (fun i ch => mkCell i j (classify wallS startS endS ch))
               (split_chars row)) m.

Definition has_type (t : CellType) (c : Cell) : bool := bool_decide (type c = t).

(** [grid.flat().find(cell => cell.type === t) || null] *)
Definition find_type (t : CellType) (grid : list (list Cell)) : option Cell :=
  List.find (has_type t) (concat grid).

(** The effect: it rebuilds grid, start and end when the maze has at least
    one line, and otherwise only clears [isMazeGenerated]. *)
Definition rebuild (st : State) : State :=
  if decide (0 < length (maze st)) then
    let grid := buildGrid (wallSymbol st) (startSymbol st) (endSymbol st) (maze st) in
    {| maze := maze st; mazeGrid := grid;
       start := find_type Start grid; end_ := find_type End grid;
       currentPos := currentPos st;
       wallSymbol := wallSymbol st; pathSymbol := pathSymbol st;
       startSymbol := startSymbol st; endSymbol := endSymbol st;
       moveKeys := moveKeys st; isAnimating := isAnimating st;
       solutionMoves := solutionMoves st; isMazeGenerated := true |}
  else
    {| maze := maze st; mazeGrid := mazeGrid st;
       start := start st; end_ := end_ st;
       currentPos := currentPos st;
       wallSymbol := wallSymbol st; pathSymbol := pathSymbol st;
       startSymbol := startSymbol st; endSymbol := endSymbol st;
       moveKeys := moveKeys st; isAnimating := isAnimating st;
       solutionMoves := solutionMoves st; isMazeGenerated := false |}.

(** [setMaze(lines)] followed by the effect it triggers. *)
Definition setMaze (lines : list string) (st : State) : State :=
  rebuild
    {| maze := lines; mazeGrid := mazeGrid st; start := start st; end_ := end_ st;
       currentPos := currentPos st;
       wallSymbol := wallSymbol st; pathSymbol := pathSymbol st;
       startSymbol := startSymbol st; endSymbol := endSymbol st;
       moveKeys := moveKeys st; isAnimating := isAnimating st;
       solutionMoves := solutionMoves st; isMazeGenerated := isMazeGenerated st |}.

(** ** Neighbours and key bindings *)

(** [getNextCell], lines 49-61.  [None] stands for [null] and for
    [undefined]: both callers only test the result for truthiness.  On
    naturals [n - 1] is truncated, which agrees with the source:
    [y < 0 - 1] is false there and [y < 0] is false here. *)
Definition getNextCell (grid : list (list Cell)) (c : Cell) (d : Direction)
  : js (option Cell) :=
  match d with
  | Up => if 0 <? y c then index2 grid (y c - 1) (x c) else Val None
  | Down => if y c <? length grid - 1 then index2 grid (y c + 1) (x c) else Val None
  | Left => if 0 <? x c then index2 grid (y c) (x c - 1) else Val None
  | Right =>
      match grid !! 0 with
      | None => TypeError
      | Some row0 =>
          if x c <? length row0 - 1 then index2 grid (y c) (x c + 1) else Val None
      end
  end.

(** [getKeyForDirection], lines 63-70. *)
Definition getKeyForDirection (mk : moveKeys.t) (d : Direction) : string :=
  match d with
  | Up => moveKeys.up mk
  | Down => moveKeys.down mk
  | Left => moveKeys.left mk
  | Right => moveKeys.right mk
  end.

(** ** Path solver ([solveMaze], lines 81-111) *)

(** A queue entry [{ cell, path, moves }]. *)
Record QEntry := mkQEntry { cell : Cell; path : list Cell; moves : list string }.

(** [const directions: Direction[] = ['up', 'down', 'left', 'right']] *)
Definition directions : list Direction := [Up; Down; Left; Right].

Definition is_wall (t : CellType) : bool := bool_decide (t = Wall).

(** [visited[c.y][c.x]]; a missing row throws, a missing entry is
    [undefined], which [!] turns into [true]. *)
Definition read_visited (visited : list (list bool)) (c : Cell) : js bool :=
  match visited !! y c with
  | None => TypeError
  | Some row => Val (default false (row !! x c))
  end.

(** [visited[c.y][c.x] = true] *)
Definition mark_visited (visited : list (list bool)) (c : Cell) : js (list (list bool)) :=
  match visited !! y c with
  | None => TypeError
  | Some row => Val (<[y c := js_set false row (x c) true]> visited)
  end.

(** The body of the [for (const direction of directions)] loop; its state is
    the pair of [visited] and [queue], both mutated in place by the source. *)
Definition try_direction (grid : list (list Cell)) (mk : moveKeys.t) (e : QEntry)
    (d : Direction) (s : list (list bool) * list QEntry)
  : js (list (list bool) * list QEntry) :=
  newCell ← getNextCell grid (cell e) d;
  match newCell with
  | None => Val s
  | Some newCell =>
      seen ← read_visited s.1 newCell;
      if negb seen && negb (is_wall (type newCell)) then
        visited' ← mark_visited s.1 newCell;
        Val (visited',
             s.2 ++ [ {| cell := newCell;
                         path := path e ++ [newCell];
                         moves := moves e ++ [getKeyForDirection mk d] |} ])
      else Val s
  end.

(** What a click on the solve button amounts to. *)
Inductive SolveOutcome :=
| MissingEndpoint                                   (* [if (!start || !end) return] *)
| Found (path : list Cell) (moves : list string)    (* [animatePath(path)], [setSolutionMoves] *)
| NoPathFound                                       (* [alert('No path found!')] *)
| Crashed                                           (* an uncaught [TypeError] *)
| OutOfFuel.                                        (* the model's loop bound was reached *)

(** [cell.x === end.x && cell.y === end.y] *)
Definition same_pos (c e : Cell) : bool := (x c =? x e) && (y c =? y e).

(** One test of [queue.length > 0] followed, when it holds, by one run of the
    loop body: either [solveMaze] is left, or the loop goes round again with
    the updated [visited] and [queue]. *)
Inductive Iteration :=
| Leave (o : SolveOutcome)
| Again (visited : list (list bool)) (queue : list QEntry).

Definition loop_body (grid : list (list Cell)) (mk : moveKeys.t) (e : Cell)
    (visited : list (list bool)) (queue : list QEntry) : Iteration :=
  match queue with
  | [] => Leave NoPathFound
  | q :: rest =>
      if same_pos (cell q) e then Leave (Found (path q) (moves q))
      else
        match for_of (try_direction grid mk q) directions (visited, rest) with
        | TypeError => Leave Crashed
        | Val s => Again s.1 s.2
        end
  end.

(** [while (queue.length > 0) { ... }], at most [fuel] iterations. *)
Fixpoint bfs_loop (fuel : nat) (grid : list (list Cell)) (mk : moveKeys.t)
    (e : Cell) (visited : list (list bool)) (queue : list QEntry) : SolveOutcome :=
  match fuel with
  | 0 => OutOfFuel
  | S fuel' =>
      match loop_body grid mk e visited queue with
      | Leave o => o
      | Again visited' queue' => bfs_loop fuel' grid mk e visited' queue'
      end
  end.

(** [maze.map(row => row.split('').map(() => false))] *)
Definition init_visited (m : list string) : list (list bool) :=
  map (fun row => map (fun _ => false) (split_chars row)) m.

(** Number of cells of the maze text. *)
Definition cell_count (m : list string) : nat :=
  length (concat (init_visited m)).

(** Every iteration either ends the loop or removes one queue entry and adds
    at most one entry per cell it marks, so [2 * cell_count + 2] iterations
    are never exhausted (see [search_fuel_enough]). *)
Definition search_fuel (m : list string) : nat := 2 * cell_count m + 2.

(** The search of [solveMaze], without its effects on the component. *)
Definition search (st : State) : SolveOutcome :=
  match start st, end_ st with
  | Some s, Some e =>
      bfs_loop (search_fuel (maze st)) (mazeGrid st) (moveKeys st) e
               (init_visited (maze st))
               [ {| cell := s; path := [s]; moves := [] |} ]
  | _, _ => MissingEndpoint
  end.

(** ** State setters *)

Definition setCurrentPos (c : option Cell) (st : State) : State :=
  {| maze := maze st; mazeGrid := mazeGrid st; start := start st; end_ := end_ st;
     currentPos := c;
     wallSymbol := wallSymbol st; pathSymbol := pathSymbol st;
     startSymbol := startSymbol st; endSymbol := endSymbol st;
     moveKeys := moveKeys st; isAnimating := isAnimating st;
     solutionMoves := solutionMoves st; isMazeGenerated := isMazeGenerated st |}.

Definition setIsAnimating (b : bool) (st : State) : State :=
  {| maze := maze st; mazeGrid := mazeGrid st; start := start st; end_ := end_ st;
     currentPos := currentPos st;
     wallSymbol := wallSymbol st; pathSymbol := pathSymbol st;
     startSymbol := startSymbol st; endSymbol := endSymbol st;
     moveKeys := moveKeys st; isAnimating := b;
     solutionMoves := solutionMoves st; isMazeGenerated := isMazeGenerated st |}.

Definition setSolutionMoves (m : string) (st : State) : State :=
  {| maze := maze st; mazeGrid := mazeGrid st; start := start st; end_ := end_ st;
     currentPos := currentPos st;
     wallSymbol := wallSymbol st; pathSymbol := pathSymbol st;
     startSymbol := startSymbol st; endSymbol := endSymbol st;
     moveKeys := moveKeys st; isAnimating := isAnimating st;
     solutionMoves := m; isMazeGenerated := isMazeGenerated st |}.

(** ** Replay ([animatePath], lines 72-79) *)

(** The component together with the calls of [animatePath] that are
    suspended at their [await], oldest first; a suspended call is the list of
    cells its loop has still to apply.  All delays are 50ms, so the timers
    fire in the order in which they were set. *)
Record Session := mkSession { ui : State; pending : list (list Cell) }.

(** The [for (const cell of path)] loop from the point where [rest] is still
    to be applied, up to its next [await] or, when nothing is left, through
    [setIsAnimating(false)]. *)
Definition animate_loop (rest : list Cell) (s : Session) : Session :=
  match rest with
  | [] => {| ui := setIsAnimating false (ui s); pending := pending s |}
  | c :: rest' =>
      {| ui := setCurrentPos (Some c) (ui s); pending := pending s ++ [rest'] |}
  end.

(** The call [animatePath(path)], up to its first [await]. *)
Definition animatePath (p : list Cell) (s : Session) : Session :=
  animate_loop p {| ui := setIsAnimating true (ui s); pending := pending s |}.

(** The oldest timer fires and its call of [animatePath] resumes. *)
Definition timerFires (s : Session) : Session :=
  match pending s with
  | [] => s
  | rest :: others => animate_loop rest {| ui := ui s; pending := others |}
  end.

(** [solveMaze], with its effects: on success the replay is started and the
    solution string is set; otherwise no state is written. *)
Definition solveMaze (s : Session) : Session * SolveOutcome :=
  match search (ui s) with
  | Found p m =>
      let s1 := animatePath p s in
      ({| ui := setSolutionMoves (join m) (ui s1); pending := pending s1 |},
       Found p m)
  | o => (s, o)
  end.

(** ** Manual moves ([handleKeyPress], lines 141-158) *)

(** The chain of [if (key === moveKeys.up) ... else if ...]. *)
Definition key_direction (mk : moveKeys.t) (key : string) : option Direction :=
  if String.eqb key (moveKeys.up mk) then Some Up
  else if String.eqb key (moveKeys.down mk) then Some Down
  else if String.eqb key (moveKeys.left mk) then Some Left
  else if String.eqb key (moveKeys.right mk) then Some Right
  else None.

Definition handleKeyPress (st : State) (key : string) : js State :=
  if isAnimating st then Val st
  else
    match key_direction (moveKeys st) (toLowerCase key), currentPos st with
    | Some d, Some cur =>
        nextCell ← getNextCell (mazeGrid st) cur d;
        match nextCell with
        | Some n =>
            if negb (is_wall (type n)) then Val (setCurrentPos (Some n) st)
            else Val st
        | None => Val st
        end
    | _, _ => Val st
    end.

(** ** Events *)

Inductive Event := KeyPress (key : string) | SolveClick | TimerFires.

(** One event of the host's loop; a handler that throws has written no
    state. *)
Definition dispatch (s : Session) (ev : Event) : Session :=
  match ev with
  | KeyPress key =>
      match handleKeyPress (ui s) key with
      | Val st => {| ui := st; pending := pending s |}
      | TypeError => s
      end
  | SolveClick => (solveMaze s).1
  | TimerFires => timerFires s
  end.

Definition run (s : Session) (evs : list Event) : Session :=
  foldl dispatch s evs.

(** ** Example mazes *)

(** The maze of the specification. *)
Definition demo : State :=
  setMaze ["###"; "#P."; "#.E"; "###"] initialState.

(** The path the solver finds in it. *)
Definition demoPath : list Cell :=
  [mkCell 1 1 Start; mkCell 1 2 Path; mkCell 2 2 End].

(** Two timers, with key events in between. *)
Definition demoEvents : list Event :=
  [KeyPress "d"; TimerFires; KeyPress "w"; TimerFires].

(** A text whose second line is longer than its first. *)
Definition raggedMaze : State := setMaze ["P"; ".E"] initialState.

(** A maze without an end symbol. *)
Definition noEndMaze : State :=
  setMaze ["###"; "#P."; "#.."; "###"] initialState.

(** A maze whose end is walled off from its start. *)
Definition walledMaze : State := setMaze ["P#E"] initialState.

(** A maze with two start symbols and two end symbols. *)
Definition twoStartsMaze : State :=
  setMaze [".EP"; "PE."] initialState.

(** A text in which the wall symbol and the start symbol are both [#], and
    which holds a character that is none of the four symbols. *)
Definition clashMaze : State :=
  setMaze ["#?."]
    {| maze := []; mazeGrid := []; start := None; end_ := None;
       currentPos := None;
       wallSymbol := "#"; pathSymbol := "."; startSymbol := "#"; endSymbol := "E";
       moveKeys := moveKeys.mk "w" "s" "a" "d";
       isAnimating := false; solutionMoves := EmptyString;
       isMazeGenerated := false |}.

(** A text whose second line is longer than its first, solved and then left
    by one manual step down: the cursor is on the middle cell of the second
    line. *)
Definition raggedCursor : State :=
  ui (run (mkSession (setMaze ["PE"; "..."] initialState) [])
          [SolveClick; TimerFires; TimerFires; KeyPress "s"]).

(** The maze of the specification, solved and replayed to its end. *)
Definition demoSolved : Session :=
  run (mkSession demo []) [SolveClick; TimerFires; TimerFires; TimerFires].

(** A corridor: start, one path cell, end. *)
Definition corridor : State := setMaze ["P.E"] initialState.

(** The session right after a click on the solve button: the replay of the
    solution has applied its first cell and waits for its timer. *)
Definition demoReplaying : Session := dispatch (mkSession demo []) SolveClick.

(** ** Vocabulary of the properties *)

(** The cell stored at column [i] of row [j], if the grid has one there. *)
Definition cell_at (g : list (list Cell)) (i j : nat) : option Cell :=
  row ← g !! j; row !! i.

(** [c] is a cell of the grid, stored at its own coordinates. *)
Definition in_grid (g : list (list Cell)) (c : Cell) : Prop :=
  cell_at g (x c) (y c) = Some c.

#[global] Instance in_grid_dec g c : Decision (in_grid g c).
Proof. unfold in_grid. apply _. Defined.

(** Every cell carries the coordinates it is stored at. *)
Definition wf_grid (g : list (list Cell)) : Prop :=
  ∀ i j c, cell_at g i j = Some c → x c = i ∧ y c = j.

(** The character at column [i] of line [j] of the maze text. *)
Definition char_at (m : list string) (i j : nat) : option ascii :=
  row ← m !! j; split_chars row !! i.

(** All lines have the same number of characters. *)
Definition rectangular (m : list string) : Prop :=
  ∃ width, Forall (λ row, length (split_chars row) = width) m.

(** The state is the one the effect leaves: grid, start and end are those
    of the current text and symbols. *)
Definition synced (st : State) : Prop :=
  mazeGrid st = buildGrid (wallSymbol st) (startSymbol st) (endSymbol st) (maze st)
  ∧ start st = find_type Start (mazeGrid st)
  ∧ end_ st = find_type End (mazeGrid st).

(** One move in direction [d] takes [c] to the position of [c']. *)
Definition moved (d : Direction) (c c' : Cell) : Prop :=
  match d with
  | Up => x c' = x c ∧ S (y c') = y c
  | Down => x c' = x c ∧ y c' = S (y c)
  | Left => S (x c') = x c ∧ y c' = y c
  | Right => x c' = S (x c) ∧ y c' = y c
  end.

(** Four-directional adjacency of positions: up, down, left or right. *)
Definition adjacent (c c' : Cell) : Prop :=
  moved Up c c' ∨ moved Down c c' ∨ moved Left c c' ∨ moved Right c c'.

#[global] Instance moved_dec d c c' : Decision (moved d c c').
Proof. destruct d; simpl; apply _. Defined.

#[global] Instance adjacent_dec c c' : Decision (adjacent c c').
Proof. unfold adjacent. apply _. Defined.

(** [p] is a walk of the maze graph: its cells are cells of the grid, none
    is a wall, and consecutive cells are four-directional neighbours. *)
Fixpoint is_walk (g : list (list Cell)) (p : list Cell) : Prop :=
  match p with
  | [] => True
  | c :: p' =>
      in_grid g c ∧ type c ≠ Wall
      ∧ match p' with [] => True | c' :: _ => adjacent c c' end
      ∧ is_walk g p'
  end.

(** [p] is a walk from [s] to [e]. *)
Definition connects (g : list (list Cell)) (s e : Cell) (p : list Cell) : Prop :=
  is_walk g p ∧ head p = Some s ∧ last p = Some e.

(** ** Vocabulary of the search *)

(** Whether [visited] holds [true] at the position of [c]. *)
Definition visited_at (visited : list (list bool)) (c : Cell) : bool :=
  match visited !! y c with
  | Some row => default false (row !! x c)
  | None => false
  end.

(** [visited] has the shape of the grid. *)
Definition same_shape (visited : list (list bool)) (g : list (list Cell)) : Prop :=
  Forall2 (λ vrow grow, length vrow = length grow) visited g.

Definition count_false (row : list bool) : nat :=
  length (filter (λ b, b = false) row).

(** Number of positions not yet marked. *)
Definition count_unvisited (visited : list (list bool)) : nat :=
  count_false (concat visited).

(** The edges the search follows: [c'] is what [getNextCell] returns from
    [c] in some direction, and it is not a wall. *)
Definition step (g : list (list Cell)) (c c' : Cell) : Prop :=
  ∃ d, getNextCell g c d = Val (Some c') ∧ type c' ≠ Wall.

(** [c] is at the end of a chain of [k] edges from [s]. *)
Inductive reach (g : list (list Cell)) (s : Cell) : nat → Cell → Prop :=
| reach_O : reach g s 0 s
| reach_S k c c' : reach g s k c → step g c c' → reach g s (S k) c'.

(** [m] is the entry pushed when [n] is expanded in direction [d]. *)
Definition child (g : list (list Cell)) (mk : moveKeys.t) (d : Direction)
    (n m : QEntry) : Prop :=
  getNextCell g (cell n) d = Val (Some (cell m))
  ∧ type (cell m) ≠ Wall
  ∧ path m = path n ++ [cell m]
  ∧ moves m = moves n ++ [getKeyForDirection mk d].

(** The entries the search can ever hold, with the directions that led to
    them: the initial entry, and the children of such entries. *)
Inductive derived (g : list (list Cell)) (mk : moveKeys.t) (s : Cell)
  : list Direction → QEntry → Prop :=
| derived_start : derived g mk s [] {| cell := s; path := [s]; moves := [] |}
| derived_child ds d n m :
    derived g mk s ds n → child g mk d n m → derived g mk s (ds ++ [d]) m.

(** Number of edges of an entry's path. *)
Definition depth (n : QEntry) : nat := length (moves n).

Definition queued (q : list QEntry) (c : Cell) : Prop := ∃ n, n ∈ q ∧ cell n = c.

(** The invariant of the [while] loop.  [D] is the set of cells that have
    been dequeued and expanded, [d] the depth of the front of the queue,
    [A] the queued entries of that depth and [B] those one edge deeper. *)
Definition bfs_inv_at (g : list (list Cell)) (mk : moveKeys.t) (s e : Cell)
    (D : Cell → Prop) (d : nat) (A B : list QEntry)
    (visited : list (list bool)) : Prop :=
  (∀ n, n ∈ A → depth n = d)
  ∧ (∀ n, n ∈ B → depth n = S d)
  ∧ (∀ n, n ∈ A ++ B → in_grid g (cell n) ∧ ∃ ds, derived g mk s ds n)
  ∧ (∀ k c, k < d → reach g s k c → D c)
  ∧ (∀ c, reach g s d c → D c ∨ queued A c)
  ∧ (∀ c c', D c → step g c c' → D c' ∨ queued (A ++ B) c')
  ∧ (∀ c, in_grid g c → visited_at visited c = true → D c ∨ queued (A ++ B) c)
  ∧ (∀ c, D c → same_pos c e = false)
  ∧ same_shape visited g.

Definition bfs_inv (g : list (list Cell)) (mk : moveKeys.t) (s e : Cell)
    (visited : list (list bool)) (q : list QEntry) : Prop :=
  ∃ D d A B, q = A ++ B ∧ bfs_inv_at g mk s e D d A B visited.

(** Row-major order of positions: an earlier row, or the same row and a
    column that is not later. *)
Definition row_major_le (c c' : Cell) : Prop :=
  y c < y c' ∨ (y c = y c' ∧ x c ≤ x c').

(** [o] is the designated cell of kind [t]: the first cell of that kind in
    row-major order, or nothing when the grid has no cell of that kind. *)
Definition first_of_kind (g : list (list Cell)) (t : CellType) (o : option Cell)
  : Prop :=
  match o with
  | Some c =>
      in_grid g c ∧ type c = t
      ∧ ∀ c', in_grid g c' → type c' = t → row_major_le c c'
  | None => ∀ c', in_grid g c' → type c' ≠ t
  end.

(** Every direction is bound to a string of exactly one character, as the
    data model of the move keys has it. *)
Definition single_char_keys (mk : moveKeys.t) : Prop :=
  ∀ d, String.length (getKeyForDirection mk d) = 1.

(** The cursor, when it is set, is on a cell of the grid that is not a
    wall. *)
Definition cursor_ok (st : State) : Prop :=
  ∀ c, currentPos st = Some c → in_grid (mazeGrid st) c ∧ type c ≠ Wall.

#[global] Instance Event_eq_dec : EqDecision Event.
Proof. solve_decision. Defined.

(** How many timers fire in a sequence of events. *)
Definition timer_count (evs : list Event) : nat :=
  length (filter (λ ev, ev = TimerFires) evs).

(** ** Text, symbol and key inputs *)

(** The line feed, the separator of [split('\n')]. *)
Definition newline : ascii := ascii_of_nat 10.

(** [value.split('\n')]: the pieces between the line feeds; there is always
    at least one piece, the empty text giving one empty line. *)
Fixpoint split_lines (value : string) : list string :=
  match value with
  | EmptyString => [EmptyString]
  | String ch rest =>
      if Ascii.eqb ch newline then EmptyString :: split_lines rest
      else
        match split_lines rest with
        | line :: lines => String ch line :: lines
        | [] => [String ch EmptyString]
        end
  end.

(** [lines.join('\n')], the inverse direction. *)
Definition join_lines (lines : list string) : string :=
  String.concat (String newline EmptyString) lines.

(** [handleMazeInput], lines 137-139: [setMaze(event.target.value.split('\n'))],
    with the effect the new text triggers. *)
Definition handleMazeInput (value : string) (st : State) : State :=
  setMaze (split_lines value) st.

(** [onChange={(e) => setWallSymbol(e.target.value)}], line 186, with the
    effect: [wallSymbol] is one of its dependencies. *)
Definition setWallSymbol (v : string) (st : State) : State :=
  rebuild
    {| maze := maze st; mazeGrid := mazeGrid st; start := start st; end_ := end_ st;
       currentPos := currentPos st;
       wallSymbol := v; pathSymbol := pathSymbol st;
       startSymbol := startSymbol st; endSymbol := endSymbol st;
       moveKeys := moveKeys st; isAnimating := isAnimating st;
       solutionMoves := solutionMoves st; isMazeGenerated := isMazeGenerated st |}.

(** [setStartSymbol], line 210, with the effect. *)
Definition setStartSymbol (v : string) (st : State) : State :=
  rebuild
    {| maze := maze st; mazeGrid := mazeGrid st; start := start st; end_ := end_ st;
       currentPos := currentPos st;
       wallSymbol := wallSymbol st; pathSymbol := pathSymbol st;
       startSymbol := v; endSymbol := endSymbol st;
       moveKeys := moveKeys st; isAnimating := isAnimating st;
       solutionMoves := solutionMoves st; isMazeGenerated := isMazeGenerated st |}.

(** [setEndSymbol], line 222, with the effect. *)
Definition setEndSymbol (v : string) (st : State) : State :=
  rebuild
    {| maze := maze st; mazeGrid := mazeGrid st; start := start st; end_ := end_ st;
       currentPos := currentPos st;
       wallSymbol := wallSymbol st; pathSymbol := pathSymbol st;
       startSymbol := startSymbol st; endSymbol := v;
       moveKeys := moveKeys st; isAnimating := isAnimating st;
       solutionMoves := solutionMoves st; isMazeGenerated := isMazeGenerated st |}.

(** [setPathSymbol], line 198.  [pathSymbol] is not among the dependencies of
    the effect, so nothing is rebuilt. *)
Definition setPathSymbol (v : string) (st : State) : State :=
  {| maze := maze st; mazeGrid := mazeGrid st; start := start st; end_ := end_ st;
     currentPos := currentPos st;
     wallSymbol := wallSymbol st; pathSymbol := v;
     startSymbol := startSymbol st; endSymbol := endSymbol st;
     moveKeys := moveKeys st; isAnimating := isAnimating st;
     solutionMoves := solutionMoves st; isMazeGenerated := isMazeGenerated st |}.

(** [{ ...moveKeys, [direction]: v }] *)
Definition update_key (mk : moveKeys.t) (d : Direction) (v : string) : moveKeys.t :=
  match d with
  | Up => moveKeys.mk v (moveKeys.down mk) (moveKeys.left mk) (moveKeys.right mk)
  | Down => moveKeys.mk (moveKeys.up mk) v (moveKeys.left mk) (moveKeys.right mk)
  | Left => moveKeys.mk (moveKeys.up mk) (moveKeys.down mk) v (moveKeys.right mk)
  | Right => moveKeys.mk (moveKeys.up mk) (moveKeys.down mk) (moveKeys.left mk) v
  end.

(** The move-key fields, line 291:
    [setMoveKeys({ ...moveKeys, [direction]: e.target.value.toLowerCase() })]. *)
Definition handleMoveKeyInput (d : Direction) (value : string) (st : State) : State :=
  {| maze := maze st; mazeGrid := mazeGrid st; start := start st; end_ := end_ st;
     currentPos := currentPos st;
     wallSymbol := wallSymbol st; pathSymbol := pathSymbol st;
     startSymbol := startSymbol st; endSymbol := endSymbol st;
     moveKeys := update_key (moveKeys st) d (toLowerCase value);
     isAnimating := isAnimating st;
     solutionMoves := solutionMoves st; isMazeGenerated := isMazeGenerated st |}.


(** ** Cell sizing ([adjustCellSize], lines 37-47) *)

(** The numbers [adjustCellSize] can meet.  The sizes it reads and the
    lengths it divides by are non-negative integers; a division by zero gives
    [Infinity], or [NaN] for zero by zero.  For integers in the range of
    pixel counts the floor of the quotient is the integer quotient. *)
Inductive jsnum := Num (n : nat) | Infinity | NaN.

(** [Math.floor(a / b)] *)
Definition floor_div (a b : nat) : jsnum :=
  if b =? 0 then (if a =? 0 then NaN else Infinity) else Num (a / b).

(** [Math.min(a, b)] *)
Definition math_min (a b : jsnum) : jsnum :=
  match a, b with
  | NaN, _ | _, NaN => NaN
  | Infinity, _ => b
  | _, Infinity => a
  | Num n, Num n' => Num (n `min` n')
  end.

(** [Math.max(a, b)] *)
Definition math_max (a b : jsnum) : jsnum :=
  match a, b with
  | NaN, _ | _, NaN => NaN
  | Infinity, _ | _, Infinity => Infinity
  | Num n, Num n' => Num (n `max` n')
  end.

(** [mazeContainerRef.current], as far as it is read. *)
Record Container := mkContainer { clientWidth : nat; clientHeight : nat }.

(** [adjustCellSize]; its result is the new value of [cellSize], the old one
    when the guard fails. *)
Definition adjustCellSize (container : option Container) (m : list string)
    (cellSize : jsnum) : jsnum :=
  match container, m with
  | Some box, row0 :: _ =>
      let mazeWidth := length (split_chars row0) in
      let mazeHeight := length m in
      let cellWidth := floor_div (clientWidth box) mazeWidth in
      let cellHeight := floor_div (clientHeight box) mazeHeight in
      math_max (math_min cellWidth cellHeight) (Num 10)
  | _, _ => cellSize
  end.

(** The square a cell is drawn in, lines 250-255:
    [width: cellSize, height: cellSize, left: x * cellSize, top: y * cellSize]. *)
Module Tile.
Record t := mk { left : nat; top : nat; width : nat; height : nat }.
End Tile.

Definition cell_tile (c : Cell) (cellSize : nat) : Tile.t :=
  {| Tile.left := x c * cellSize; Tile.top := y c * cellSize;
     Tile.width := cellSize; Tile.height := cellSize |}.

(** The tile lies within the container. *)
Definition tile_inside (t : Tile.t) (box : Container) : Prop :=
  Tile.left t + Tile.width t ≤ clientWidth box
  ∧ Tile.top t + Tile.height t ≤ clientHeight box.

(** Two tiles share no point: one ends where, or before, the other begins,
    horizontally or vertically. *)
Definition tiles_disjoint (t t' : Tile.t) : Prop :=
  Tile.left t + Tile.width t ≤ Tile.left t'
  ∨ Tile.left t' + Tile.width t' ≤ Tile.left t
  ∨ Tile.top t + Tile.height t ≤ Tile.top t'
  ∨ Tile.top t' + Tile.height t' ≤ Tile.top t.

(** ** Vocabulary of the further properties *)

(** The position of a direction in the chain of tests of [handleKeyPress]:
    up, down, left, right. *)
Definition dir_index (d : Direction) : nat :=
  match d with Up => 0 | Down => 1 | Left => 2 | Right => 3 end.


(** Every binding is its own lower-case form. *)
Definition keys_lower (mk : moveKeys.t) : Prop :=
  ∀ d, toLowerCase (getKeyForDirection mk d) = getKeyForDirection mk d.

(** No two directions share a binding. *)
Definition keys_distinct (mk : moveKeys.t) : Prop :=
  ∀ d d', getKeyForDirection mk d = getKeyForDirection mk d' → d = d'.

(** A cell of the grid that is not a wall. *)
Definition open_cell (g : list (list Cell)) (c : Cell) : Prop :=
  in_grid g c ∧ type c ≠ Wall.

(** What every event keeps while text and symbols stay as they are: the
    state is the one the effect left, the cursor is unset or on an open cell,
    and so is every cell a suspended replay has still to apply. *)
Definition session_safe (s : Session) : Prop :=
  synced (ui s)
  ∧ cursor_ok (ui s)
  ∧ ∀ rest c, rest ∈ pending s → c ∈ rest → open_cell (mazeGrid (ui s)) c.

(** The cursor, when it is set, holds a position at which the grid has a
    cell (the cursor's own kind may be out of date). *)
Definition cursor_in_range (st : State) : Prop :=
  ∀ c, currentPos st = Some c → is_Some (cell_at (mazeGrid st) (x c) (y c)).

(** Two queue entries with the same cell, the same path and as many moves. *)
Definition same_route (a b : QEntry) : Prop :=
  cell a = cell b ∧ path a = path b ∧ length (moves a) = length (moves b).

(** Two outcomes of the same kind and, when paths were found, with the same
    path and as many moves. *)
Definition same_outcome_route (o o' : SolveOutcome) : Prop :=
  match o, o' with
  | MissingEndpoint, MissingEndpoint => True
  | Found p m, Found p' m' => p = p' ∧ length m = length m'
  | NoPathFound, NoPathFound => True
  | Crashed, Crashed => True
  | OutOfFuel, OutOfFuel => True
  | _, _ => False
  end.

(** ** Vocabulary of the tie-break *)

(** The directions [L], taken one after the other from [s] through cells that
    are not walls, lead to [c]. *)
Inductive leads (g : list (list Cell)) (s : Cell) : list Direction → Cell → Prop :=
| leads_nil : leads g s [] s
| leads_snoc L c d c' :
    leads g s L c → getNextCell g c d = Val (Some c') → type c' ≠ Wall →
    leads g s (L ++ [d]) c'.

(** Dictionary order on sequences of directions, the directions in the order
    in which [solveMaze] tries them: up, down, left, right. *)
Fixpoint lex_lt (P Q : list Direction) : Prop :=
  match P, Q with
  | d :: P', d' :: Q' => dir_index d < dir_index d' ∨ (d = d' ∧ lex_lt P' Q')
  | [], _ :: _ => True
  | _, [] => False
  end.

Definition lex_le (P Q : list Direction) : Prop := P = Q ∨ lex_lt P Q.

(** Each sequence comes before all later ones. *)
Fixpoint increasing (l : list (list Direction)) : Prop :=
  match l with
  | [] => True
  | P :: l' => (∀ Q, Q ∈ l' → lex_lt P Q) ∧ increasing l'
  end.

(** The invariant of the [while] loop that fixes which shortest path is
    found.  The queue entries are paired with the directions that led to
    them; on top of [bfs_inv_at], both parts of the queue are in dictionary
    order, every deeper entry continues a sequence that comes before all
    entries of the front depth, every entry's sequence is the first, in
    dictionary order, among the sequences of its length that lead to its
    cell, and every neighbour of an expanded cell is marked. *)
Definition tie_inv_at (g : list (list Cell)) (mk : moveKeys.t) (s e : Cell)
    (D : Cell → Prop) (d : nat) (A B : list (list Direction * QEntry))
    (visited : list (list bool)) : Prop :=
  bfs_inv_at g mk s e D d (A.*2) (B.*2) visited
  ∧ (∀ P n, (P, n) ∈ A ++ B → derived g mk s P n)
  ∧ increasing (A.*1)
  ∧ increasing (B.*1)
  ∧ (∀ Pb, Pb ∈ B.*1 →
       ∃ P' d', Pb = P' ++ [d'] ∧ length P' = d ∧ ∀ Pa, Pa ∈ A.*1 → lex_lt P' Pa)
  ∧ (∀ P n, (P, n) ∈ A ++ B →
       ∀ L, length L = length P → leads g s L (cell n) → lex_le P L)
  ∧ (∀ c c', D c → step g c c' → visited_at visited c' = true).

Definition tie_inv (g : list (list Cell)) (mk : moveKeys.t) (s e : Cell)
    (visited : list (list bool)) (q : list QEntry) : Prop :=
  ∃ D d A B, q = (A ++ B).*2 ∧ tie_inv_at g mk s e D d A B visited.

(** The directions come in the order in which they are tried. *)
Fixpoint dirs_sorted (ds : list Direction) : Prop :=
  match ds with
  | [] => True
  | d :: ds' => (∀ d', d' ∈ ds' → dir_index d < dir_index d') ∧ dirs_sorted ds'
  end.

(** A text input while the session may hold suspended replays:
    [handleMazeInput] writes the component's state; the timers of the
    replays are not touched. *)
Definition editText (value : string) (s : Session) : Session :=
  {| ui := handleMazeInput value (ui s); pending := pending s |}.

(** Number of characters of the maze text, line feeds not counted. *)
Definition text_size (m : list string) : nat :=
  sum_list (map (λ row, length (split_chars row)) m).

(** The maze of the specification after the field of the down key has been
    emptied. *)
Definition emptyKeyDemo : State := handleMoveKeyInput Down EmptyString demo.

(** A click on the solve button, a second click one step into the replay,
    the timers of both replays up to the last cell of the second one, a key
    event, and the last timer of the second replay. *)
Definition overlapEvents : list Event :=
  [SolveClick; TimerFires; SolveClick; TimerFires; TimerFires; TimerFires;
   TimerFires; KeyPress "w"; TimerFires].

(** The current positions after each prefix of a sequence of events. *)
Definition cursor_trace (s : Session) (evs : list Event) : list (option Cell) :=
  (λ k, currentPos (ui (run s (take k evs)))) <$> seq 1 (length evs).

(** * Properties *)

(** ** The built grid *)

Lemma buildGrid_lookup w s e m j :
  buildGrid w s e m !! j
  = (λ row, imap (λ i ch, mkCell i j (classify w s e ch)) (split_chars row)) <$> m !! j.
Proof. unfold buildGrid. by rewrite list_lookup_imap. Qed.

Lemma cell_at_buildGrid w s e m i j :
  cell_at (buildGrid w s e m) i j
  = (λ ch, mkCell i j (classify w s e ch)) <$> char_at m i j.
Proof.
  unfold cell_at, char_at. rewrite buildGrid_lookup.
  destruct (m !! j) as [row|]; simpl; [|done].
  by rewrite list_lookup_imap.
Qed.

Lemma buildGrid_wf w s e m : wf_grid (buildGrid w s e m).
Proof.
  intros i j c. rewrite cell_at_buildGrid.
  destruct (char_at m i j); simpl; [|done]. by intros [= <-].
Qed.

Lemma buildGrid_length w s e m : length (buildGrid w s e m) = length m.
Proof. unfold buildGrid. by rewrite length_imap. Qed.

Lemma synced_setMaze lines st : 0 < length lines → synced (setMaze lines st).
Proof.
  intros Hl. unfold setMaze, rebuild; simpl.
  destruct (decide (0 < length lines)); [|lia]. by repeat split.
Qed.

(** ** Neighbours *)

Lemma index2_Some {A} (g : list (list A)) i j (a : A) :
  index2 g j i = Val (Some a) ↔ (row ← g !! j; row !! i) = Some a.
Proof.
  unfold index2. destruct (g !! j) as [row|]; simpl; [|naive_solver].
  split; [by intros [= ->]| by intros ->].
Qed.

Lemma cell_at_in_grid g i j c : wf_grid g → cell_at g i j = Some c → in_grid g c.
Proof. intros Hwf H. destruct (Hwf _ _ _ H) as [<- <-]. exact H. Qed.

(** Whatever [getNextCell] returns is a cell of the grid, one move away. *)
Lemma getNextCell_Some g c d c' :
  wf_grid g → getNextCell g c d = Val (Some c') → in_grid g c' ∧ moved d c c'.
Proof.
  intros Hwf. unfold getNextCell.
  destruct d.
  - destruct (0 <? y c) eqn:E; [|done]. apply Nat.ltb_lt in E.
    rewrite index2_Some. intros H. pose proof (Hwf _ _ _ H) as [Hx Hy].
    split; [by eapply cell_at_in_grid|]. simpl. lia.
  - destruct (y c <? length g - 1) eqn:E; [|done].
    rewrite index2_Some. intros H. pose proof (Hwf _ _ _ H) as [Hx Hy].
    split; [by eapply cell_at_in_grid|]. simpl. lia.
  - destruct (0 <? x c) eqn:E; [|done]. apply Nat.ltb_lt in E.
    rewrite index2_Some. intros H. pose proof (Hwf _ _ _ H) as [Hx Hy].
    split; [by eapply cell_at_in_grid|]. simpl. lia.
  - destruct (g !! 0) as [row0|]; [|done].
    destruct (x c <? length row0 - 1) eqn:E; [|done].
    rewrite index2_Some. intros H. pose proof (Hwf _ _ _ H) as [Hx Hy].
    split; [by eapply cell_at_in_grid|]. simpl. lia.
Qed.

(** From a cell of the grid [getNextCell] never throws. *)
Lemma getNextCell_no_throw g c d :
  in_grid g c → ∃ r, getNextCell g c d = Val r.
Proof.
  unfold in_grid, cell_at. intros H.
  destruct (g !! y c) as [row|] eqn:Hrow; [|done]. simpl in H.
  pose proof (lookup_lt_Some _ _ _ Hrow) as Hlen.
  unfold getNextCell, index2. destruct d.
  - destruct (0 <? y c) eqn:E; [|eauto]. apply Nat.ltb_lt in E.
    destruct (lookup_lt_is_Some_2 g (y c - 1)) as [r ->]; [lia|]. eauto.
  - destruct (y c <? length g - 1) eqn:E; [|eauto]. apply Nat.ltb_lt in E.
    destruct (lookup_lt_is_Some_2 g (y c + 1)) as [r ->]; [lia|]. eauto.
  - destruct (0 <? x c); [|eauto]. rewrite Hrow. eauto.
  - destruct (lookup_lt_is_Some_2 g 0) as [r ->]; [lia|].
    destruct (x c <? length r - 1); [|eauto]. rewrite Hrow. eauto.
Qed.

Lemma step_in_grid g c c' : wf_grid g → step g c c' → in_grid g c'.
Proof. intros Hwf (d & H & _). by destruct (getNextCell_Some _ _ _ _ Hwf H). Qed.

Lemma in_grid_same_pos g c c' :
  in_grid g c → in_grid g c' → x c = x c' → y c = y c' → c = c'.
Proof. unfold in_grid. intros H H' Hx Hy. rewrite Hx, Hy in H. congruence. Qed.

(** ** The visited matrix *)

Lemma count_false_app l1 l2 :
  count_false (l1 ++ l2) = count_false l1 + count_false l2.
Proof. unfold count_false. by rewrite filter_app, length_app. Qed.

Lemma count_false_insert (row : list bool) i :
  row !! i = Some false → S (count_false (<[i:=true]> row)) = count_false row.
Proof.
  intros H. pose proof (lookup_lt_Some _ _ _ H) as Hlt.
  rewrite insert_take_drop by done.
  rewrite <- (take_drop_middle _ _ _ H) at 3.
  rewrite !count_false_app.
  change (true :: drop (S i) row) with ([true] ++ drop (S i) row).
  change (false :: drop (S i) row) with ([false] ++ drop (S i) row).
  rewrite !count_false_app.
  change (count_false [true]) with 0. change (count_false [false]) with 1. lia.
Qed.

Lemma count_unvisited_insert (v : list (list bool)) j row i :
  v !! j = Some row → row !! i = Some false →
  S (count_unvisited (<[j:=<[i:=true]> row]> v)) = count_unvisited v.
Proof.
  intros Hj Hi. pose proof (lookup_lt_Some _ _ _ Hj) as Hlt.
  unfold count_unvisited.
  rewrite insert_take_drop by done.
  rewrite <- (take_drop_middle _ _ _ Hj) at 3.
  rewrite !concat_app, !concat_cons, !count_false_app.
  rewrite <- (count_false_insert row i Hi). lia.
Qed.

Lemma same_shape_lookup v g c :
  same_shape v g → in_grid g c →
  ∃ vrow b, v !! y c = Some vrow ∧ vrow !! x c = Some b ∧ visited_at v c = b.
Proof.
  unfold in_grid, cell_at. intros Hs H.
  destruct (g !! y c) as [grow|] eqn:Hg; [|done]. simpl in H.
  destruct (Forall2_lookup_r _ _ _ _ _ Hs Hg) as (vrow & Hv & Hlen).
  destruct (lookup_lt_is_Some_2 vrow (x c)) as [b Hb].
  { rewrite Hlen. by eapply lookup_lt_Some. }
  exists vrow, b. unfold visited_at. by rewrite Hv, Hb.
Qed.

Lemma read_visited_shape v g c :
  same_shape v g → in_grid g c → read_visited v c = Val (visited_at v c).
Proof.
  intros Hs H. destruct (same_shape_lookup _ _ _ Hs H) as (vrow & b & Hv & _ & _).
  unfold read_visited, visited_at. by rewrite Hv.
Qed.

(** Marking a cell of the grid stays inside the matrix: it sets the one
    entry at the cell's position and leaves the shape alone. *)
Lemma mark_visited_shape v g c :
  same_shape v g → in_grid g c →
  ∃ v', mark_visited v c = Val v'
    ∧ same_shape v' g
    ∧ (∀ c', visited_at v' c' =
             if decide (x c' = x c ∧ y c' = y c) then true else visited_at v c')
    ∧ (visited_at v c = false → S (count_unvisited v') = count_unvisited v).
Proof.
  intros Hs H. destruct (same_shape_lookup _ _ _ Hs H) as (vrow & b & Hv & Hb & Hvis).
  pose proof (lookup_lt_Some _ _ _ Hb) as Hlt.
  pose proof (lookup_lt_Some _ _ _ Hv) as Hlty.
  unfold mark_visited. rewrite Hv. unfold js_set.
  destruct (decide (x c < length vrow)); [|lia].
  eexists. split; [done|]. split; [|split].
  - unfold same_shape in *. unfold in_grid, cell_at in H.
    destruct (g !! y c) as [grow|] eqn:Hg; [|done].
    rewrite <- (list_insert_id g (y c) grow Hg).
    apply Forall2_insert; [done|]. rewrite length_insert.
    destruct (Forall2_lookup_lr _ _ _ _ _ _ Hs Hv Hg). done.
  - intros c'. unfold visited_at.
    destruct (decide (y c' = y c)) as [Ey|Ny].
    + rewrite Ey, list_lookup_insert_eq, Hv by done.
      destruct (decide (x c' = x c)) as [Ex|Nx].
      * rewrite Ex, list_lookup_insert_eq by done.
        by rewrite decide_True.
      * rewrite list_lookup_insert_ne by done. by rewrite decide_False by tauto.
    + rewrite list_lookup_insert_ne by done. by rewrite decide_False by tauto.
  - intros Hf. rewrite Hf in Hvis. subst b.
    by apply count_unvisited_insert.
Qed.

(** ** Expanding one queue entry *)

Lemma is_wall_false t : is_wall t = false ↔ t ≠ Wall.
Proof. unfold is_wall. by rewrite bool_decide_eq_false. Qed.

Lemma try_direction_spec g mk n d v q :
  wf_grid g → same_shape v g → in_grid g (cell n) →
  ∃ v' new, try_direction g mk n d (v, q) = Val (v', q ++ new)
    ∧ same_shape v' g
    ∧ (∀ m, m ∈ new → child g mk d n m)
    ∧ (∀ c, visited_at v' c = true ↔
            visited_at v c = true
            ∨ ∃ m, m ∈ new ∧ x c = x (cell m) ∧ y c = y (cell m))
    ∧ (∀ c', getNextCell g (cell n) d = Val (Some c') → type c' ≠ Wall →
             visited_at v' c' = true)
    ∧ count_unvisited v' + length new = count_unvisited v.
Proof.
  intros Hwf Hs Hn. unfold try_direction.
  destruct (getNextCell_no_throw g (cell n) d Hn) as [r Hr]. rewrite Hr. simpl.
  assert (Hnone :
    (∀ c', r = Some c' → type c' ≠ Wall → visited_at v c' = true) →
    ∃ v' new, Val (v, q) = Val (v', q ++ new) ∧ same_shape v' g
      ∧ (∀ m, m ∈ new → child g mk d n m)
      ∧ (∀ c, visited_at v' c = true ↔
              visited_at v c = true
              ∨ ∃ m, m ∈ new ∧ x c = x (cell m) ∧ y c = y (cell m))
      ∧ (∀ c', Val r = Val (Some c') → type c' ≠ Wall → visited_at v' c' = true)
      ∧ count_unvisited v' + length new = count_unvisited v).
  { intros Hall. exists v, []. rewrite app_nil_r.
    split; [done|]. split; [done|]. split; [|split; [|split]].
    - intros m Hm. by apply elem_of_nil in Hm.
    - intros c. split; [by left|].
      intros [?|(m & Hm & _)]; [done|]. by apply elem_of_nil in Hm.
    - intros c' [= ->]. by apply Hall.
    - simpl. lia. }
  destruct r as [c'|]; [|by apply Hnone].
  destruct (getNextCell_Some _ _ _ _ Hwf Hr) as [Hc' _].
  rewrite (read_visited_shape _ _ _ Hs Hc'). simpl.
  destruct (visited_at v c') eqn:Hseen; simpl.
  { apply Hnone. by intros ? [= <-]. }
  destruct (is_wall (type c')) eqn:Hw; simpl.
  { apply Hnone. intros ? [= <-] Hnw. apply is_wall_false in Hnw. congruence. }
  apply is_wall_false in Hw.
  destruct (mark_visited_shape _ _ _ Hs Hc') as (v' & -> & Hs' & Hvis & Hcnt).
  simpl. eexists v', [_]. split; [done|]. split; [done|]. split; [|split; [|split]].
  - intros m ->%list_elem_of_singleton. by repeat split.
  - intros c. rewrite Hvis. case_decide as Hc.
    + split; [|done]. intros _. right. eexists. split; [by apply list_elem_of_singleton|].
      simpl. tauto.
    + split; [by left|]. intros [?|(m & ->%list_elem_of_singleton & ? & ?)]; [done|].
      simpl in *. tauto.
  - intros ? [= <-] _. rewrite Hvis. by rewrite decide_True.
  - simpl. specialize (Hcnt Hseen). lia.
Qed.

(** The [for ... of directions] loop on a cell of the grid: it never throws,
    it appends children of the expanded entry, one per position it marks, and
    afterwards every neighbour that is not a wall is marked. *)
Lemma for_of_directions_spec g mk n ds v q :
  wf_grid g → same_shape v g → in_grid g (cell n) →
  ∃ v' new, for_of (try_direction g mk n) ds (v, q) = Val (v', q ++ new)
    ∧ same_shape v' g
    ∧ (∀ m, m ∈ new → ∃ d, child g mk d n m)
    ∧ (∀ c, visited_at v' c = true ↔
            visited_at v c = true
            ∨ ∃ m, m ∈ new ∧ x c = x (cell m) ∧ y c = y (cell m))
    ∧ (∀ d c', d ∈ ds → getNextCell g (cell n) d = Val (Some c') → type c' ≠ Wall →
               visited_at v' c' = true)
    ∧ count_unvisited v' + length new = count_unvisited v.
Proof.
  intros Hwf Hs Hn. revert v q Hs.
  induction ds as [|d ds IH]; intros v q Hs.
  - exists v, []. simpl. rewrite app_nil_r.
    split; [done|]. split; [done|]. split; [|split; [|split]].
    + intros m Hm. by apply elem_of_nil in Hm.
    + intros c. split; [by left|].
      intros [?|(m & Hm & _)]; [done|]. by apply elem_of_nil in Hm.
    + intros ?? Hd. by apply elem_of_nil in Hd.
    + lia.
  - simpl.
    destruct (try_direction_spec g mk n d v q Hwf Hs Hn)
      as (v1 & new1 & -> & Hs1 & Hch1 & Hvis1 & Hall1 & Hcnt1).
    simpl.
    destruct (IH v1 (q ++ new1) Hs1)
      as (v2 & new2 & -> & Hs2 & Hch2 & Hvis2 & Hall2 & Hcnt2).
    exists v2, (new1 ++ new2). rewrite app_assoc. split; [done|]. split; [done|].
    split; [|split; [|split]].
    + intros m [?|?]%elem_of_app; eauto.
    + intros c. rewrite Hvis2, Hvis1. split.
      * intros [[?|(m & ? & ?)]|(m & ? & ?)]; [by left| |];
          right; exists m; (split; [apply elem_of_app; auto|done]).
      * intros [?|(m & [?|?]%elem_of_app & ?)];
          [by left; left|left; right; eauto|right; eauto].
    + intros d' c' [->|Hd]%elem_of_cons Hnext Hnw.
      * apply Hvis2. left. by eapply Hall1.
      * by eapply Hall2.
    + rewrite length_app. lia.
Qed.

(** ** Entries of the queue *)

Lemma derived_facts g mk s ds n :
  derived g mk s ds n →
  head (path n) = Some s
  ∧ last (path n) = Some (cell n)
  ∧ length (path n) = S (length ds)
  ∧ moves n = map (getKeyForDirection mk) ds.
Proof.
  induction 1 as [|ds d n m _ (Hh & Hl & Hlen & Hm) (Hnext & Hnw & Hp & Hmv)].
  - done.
  - rewrite Hp, Hmv, Hm. repeat split.
    + destruct (path n); [done|]. exact Hh.
    + by rewrite last_snoc.
    + rewrite !length_app, Hlen. simpl. lia.
    + by rewrite map_app.
Qed.

Lemma derived_depth g mk s ds n : derived g mk s ds n → depth n = length ds.
Proof.
  intros (_ & _ & _ & Hm)%derived_facts. unfold depth. by rewrite Hm, length_map.
Qed.

Lemma queued_cons n q c : queued (n :: q) c ↔ cell n = c ∨ queued q c.
Proof.
  unfold queued. split.
  - intros (m & [->|?]%elem_of_cons & ?); eauto.
  - intros [?|(m & ? & ?)]; [exists n|exists m]; split; auto; by constructor.
Qed.

Lemma queued_app q1 q2 c : queued (q1 ++ q2) c ↔ queued q1 c ∨ queued q2 c.
Proof.
  unfold queued. split.
  - intros (m & [?|?]%elem_of_app & ?); eauto.
  - intros [(m & ? & ?)|(m & ? & ?)]; exists m; split; auto; apply elem_of_app; auto.
Qed.

Lemma queued_nil c : ¬ queued [] c.
Proof. intros (m & Hm & _). by apply elem_of_nil in Hm. Qed.

(** ** The invariant of the search loop *)

(** When the entries of the front depth are used up, the deeper ones become
    the front. *)
Lemma bfs_inv_next_level g mk s e D d B v :
  bfs_inv_at g mk s e D d [] B v → bfs_inv_at g mk s e D (S d) B [] v.
Proof.
  intros (HA & HB & Hok & Hlt & Hd & Hcl & Hvis & Hend & Hs).
  assert (Hlt' : ∀ k c, k < S d → reach g s k c → D c).
  { intros k c Hk Hr. destruct (decide (k < d)) as [?|?]; [by eapply Hlt|].
    assert (k = d) as -> by lia.
    destruct (Hd c Hr) as [?|[]%queued_nil]. done. }
  unfold bfs_inv_at. rewrite app_nil_r. simpl in *.
  split; [done|]. split; [intros n Hn; by apply elem_of_nil in Hn|].
  split; [done|]. split; [done|]. split; [|done].
  intros c Hr. inversion Hr as [|k c0 c1 Hr0 Hstep]; subst.
  eapply Hcl; [|done]. eapply Hlt'; [|done]. lia.
Qed.

(** The front of a non-empty queue can be taken to be of the front depth. *)
Lemma bfs_inv_front g mk s e v n rest :
  bfs_inv g mk s e v (n :: rest) →
  ∃ D d A B, rest = A ++ B ∧ bfs_inv_at g mk s e D d (n :: A) B v.
Proof.
  intros (D & d & A & B & Hq & Hinv).
  destruct A as [|n' A].
  - simpl in Hq. subst B. exists D, (S d), rest, [].
    rewrite app_nil_r. split; [done|]. by apply bfs_inv_next_level.
  - simpl in Hq. injection Hq as -> ->. by exists D, d, A, B.
Qed.

(** Expanding the front entry keeps the invariant. *)
Lemma bfs_inv_expand g mk s e D d n A B v v' new :
  wf_grid g →
  bfs_inv_at g mk s e D d (n :: A) B v →
  same_pos (cell n) e = false →
  same_shape v' g →
  (∀ m, m ∈ new → ∃ d', child g mk d' n m) →
  (∀ c, visited_at v' c = true ↔
        visited_at v c = true
        ∨ ∃ m, m ∈ new ∧ x c = x (cell m) ∧ y c = y (cell m)) →
  (∀ d' c', d' ∈ directions → getNextCell g (cell n) d' = Val (Some c') →
            type c' ≠ Wall → visited_at v' c' = true) →
  bfs_inv_at g mk s e (λ c, D c ∨ c = cell n) d A (B ++ new) v'.
Proof.
  intros Hwf (HA & HB & Hok & Hlt & Hd & Hcl & Hvis & Hend & Hs)
    Hne Hs' Hch Hvis' Hall.
  assert (Hn : ∃ ds, derived g mk s ds n).
  { apply Hok. by constructor. }
  destruct Hn as [dsn Hn].
  assert (Hnew : ∀ m, m ∈ new → in_grid g (cell m) ∧ depth m = S d
                      ∧ ∃ ds, derived g mk s ds m).
  { intros m Hm. destruct (Hch m Hm) as [d' Hc].
    pose proof Hc as (Hnext & _ & _ & Hmv).
    split; [by destruct (getNextCell_Some _ _ _ _ Hwf Hnext)|]. split.
    - unfold depth. rewrite Hmv, length_app. simpl.
      specialize (HA n). unfold depth in HA. rewrite HA by constructor. lia.
    - eexists. by econstructor. }
  assert (Hvisq : ∀ c, in_grid g c → visited_at v' c = true →
                       (D c ∨ c = cell n) ∨ queued (A ++ B ++ new) c).
  { intros c Hc [Hold|(m & Hm & Hx & Hy)]%Hvis'.
    - destruct (Hvis c Hc Hold) as [?|[<-|Hq]%queued_cons]; auto.
      right. rewrite app_assoc. apply queued_app. by left.
    - right. rewrite !queued_app. right; right. exists m. split; [done|].
      symmetry. eapply in_grid_same_pos; [done| |done..]. by apply Hnew. }
  unfold bfs_inv_at. split_and!.
  - intros m Hm. apply HA. by constructor.
  - intros m [?|?]%elem_of_app; [by apply HB|by apply Hnew].
  - intros m Hm. rewrite app_assoc in Hm. apply elem_of_app in Hm as [Hm|Hm].
    + apply Hok. simpl. by constructor.
    + destruct (Hnew m Hm) as (? & _ & ?). done.
  - intros k c Hk Hr. left. by eapply Hlt.
  - intros c Hr. destruct (Hd c Hr) as [?|[<-|?]%queued_cons]; auto.
  - intros c c' [HD| ->] Hstep.
    + destruct (Hcl c c' HD Hstep) as [?|[<-|Hq]%queued_cons]; auto.
      right. rewrite app_assoc. apply queued_app. by left.
    + pose proof (step_in_grid _ _ _ Hwf Hstep) as Hc'.
      destruct Hstep as (d' & Hnext & Hnw).
      apply Hvisq; [done|]. eapply Hall; [|done..].
      unfold directions. destruct d'; repeat constructor.
  - exact Hvisq.
  - intros c [HD| ->]; [by apply Hend|done].
  - done.
Qed.

(** When the queue is empty every cell reachable from the start has been
    expanded. *)
Lemma bfs_inv_empty g mk s e v k c :
  bfs_inv g mk s e v [] → reach g s k c → same_pos c e = false.
Proof.
  intros (D & d & A & B & Hq & Hinv) Hr.
  symmetry in Hq. apply app_eq_nil in Hq as [-> ->].
  destruct Hinv as (_ & _ & _ & Hlt & Hd & Hcl & _ & Hend & _).
  apply Hend. induction Hr as [|k c c' _ IH Hstep].
  - destruct d as [|d].
    + destruct (Hd s (reach_O g s)) as [?|[]%queued_nil]. done.
    + apply (Hlt 0); [lia|constructor].
  - destruct (Hcl c c' IH Hstep) as [?|[]%queued_nil]. done.
Qed.

(** The loop, run with enough fuel from a state that satisfies the
    invariant, ends in one of two ways: with the queue empty and the end not
    reachable, or at an entry on the end cell that no chain of edges reaches
    in fewer steps. *)
Lemma bfs_loop_correct g mk s e :
  wf_grid g →
  ∀ fuel v q,
    bfs_inv g mk s e v q →
    2 * count_unvisited v + length q < fuel →
    (bfs_loop fuel g mk e v q = NoPathFound
     ∧ ∀ k c, reach g s k c → same_pos c e = false)
    ∨ (∃ n ds, bfs_loop fuel g mk e v q = Found (path n) (moves n)
         ∧ derived g mk s ds n
         ∧ in_grid g (cell n)
         ∧ same_pos (cell n) e = true
         ∧ ∀ k c, reach g s k c → same_pos c e = true → length ds ≤ k).
Proof.
  intros Hwf. induction fuel as [|fuel IH]; intros v q Hinv Hfuel; [lia|].
  destruct q as [|n rest]; cbn [bfs_loop loop_body].
  { left. split; [done|]. intros k c. by eapply bfs_inv_empty. }
  destruct (bfs_inv_front _ _ _ _ _ _ _ Hinv) as (D & d & A & B & -> & Hat).
  pose proof Hat as (HA & _ & Hok & Hlt & _ & _ & _ & Hend & Hs).
  destruct (Hok n) as [Hn [ds Hder]]; [by constructor|].
  destruct (same_pos (cell n) e) eqn:Hpos.
  - right. exists n, ds. repeat split; try done.
    intros k c Hr Hc. destruct (decide (k < d)) as [Hk|Hk].
    + specialize (Hend c (Hlt k c Hk Hr)). congruence.
    + rewrite <- (derived_depth _ _ _ _ _ Hder), (HA n) by constructor. lia.
  - destruct (for_of_directions_spec g mk n directions v (A ++ B) Hwf Hs Hn)
      as (v' & new & -> & Hs' & Hch & Hvis & Hall & Hcnt).
    simpl. apply IH.
    + exists (λ c, D c ∨ c = cell n), d, A, (B ++ new).
      split; [by rewrite app_assoc|]. by eapply bfs_inv_expand.
    + simpl in Hfuel. rewrite length_app. lia.
Qed.

(** ** The initial state of the search *)

Lemma visited_at_init m c : visited_at (init_visited m) c = false.
Proof.
  unfold visited_at, init_visited. rewrite list_lookup_fmap.
  destruct (m !! y c) as [row|]; simpl; [|done].
  rewrite list_lookup_fmap. by destruct (split_chars row !! x c).
Qed.

Lemma same_shape_init w s e m : same_shape (init_visited m) (buildGrid w s e m).
Proof.
  unfold same_shape. apply Forall2_same_length_lookup. split.
  - unfold init_visited. by rewrite length_map, buildGrid_length.
  - intros j vrow grow. unfold init_visited.
    rewrite list_lookup_fmap, buildGrid_lookup.
    destruct (m !! j); simpl; [|done]. intros [= <-] [= <-].
    by rewrite length_map, length_imap.
Qed.

Lemma count_false_le l : count_false l ≤ length l.
Proof. unfold count_false. apply length_filter. Qed.

Lemma search_fuel_initial m :
  2 * count_unvisited (init_visited m) + 1 < search_fuel m.
Proof.
  unfold search_fuel, cell_count, count_unvisited.
  pose proof (count_false_le (concat (init_visited m))). lia.
Qed.

Lemma bfs_inv_initial g mk s e m :
  in_grid g s → same_shape (init_visited m) g →
  bfs_inv g mk s e (init_visited m) [ {| cell := s; path := [s]; moves := [] |} ].
Proof.
  intros Hs Hshape.
  exists (λ _, False), 0, [ {| cell := s; path := [s]; moves := [] |} ], [].
  split; [done|].
  unfold bfs_inv_at. split_and!; try done.
  - by intros n ->%list_elem_of_singleton.
  - intros n Hn. by apply elem_of_nil in Hn.
  - intros n ->%list_elem_of_singleton. split; [done|]. eexists. constructor.
  - intros k c Hk. lia.
  - intros c Hr. inversion Hr; subst. right. eexists. split; [by constructor|done].
  - intros c _. by rewrite visited_at_init.
Qed.

(** ** Walks of the maze graph and the edges of the search *)

Lemma in_grid_lookup g c :
  in_grid g c → ∃ row, g !! y c = Some row ∧ row !! x c = Some c.
Proof.
  unfold in_grid, cell_at. destruct (g !! y c) as [row|]; [|done]. eauto.
Qed.

Lemma adjacent_moved c c' : adjacent c c' ↔ ∃ d, moved d c c'.
Proof.
  unfold adjacent. split.
  - intros [?|[?|[?|?]]]; eauto.
  - intros [[] ?]; tauto.
Qed.

(** The direction of a move is determined by its two end points. *)
Lemma moved_inj d d' c c' : moved d c c' → moved d' c c' → d = d'.
Proof. destruct d, d'; simpl; intros [? ?] [? ?]; try done; lia. Qed.

(** A move between two cells of the grid is what [getNextCell] returns; for
    a move to the right the target column has to lie within the first row,
    whose length is the bound the source checks. *)
Lemma moved_getNextCell g c c' d :
  in_grid g c → in_grid g c' → moved d c c' →
  (d = Right → ∃ row0, g !! 0 = Some row0 ∧ x c' < length row0) →
  getNextCell g c d = Val (Some c').
Proof.
  intros Hc Hc' Hm Hright.
  destruct (in_grid_lookup _ _ Hc') as (row' & Hrow' & Hx').
  pose proof (lookup_lt_Some _ _ _ Hrow') as Hlen.
  assert (Hidx : ∀ i j, i = x c' → j = y c' → index2 g j i = Val (Some c')).
  { intros i j -> ->. apply index2_Some. by rewrite Hrow'. }
  unfold getNextCell. destruct d; simpl in Hm; destruct Hm as [Hx Hy].
  - destruct (0 <? y c) eqn:E; [|apply Nat.ltb_ge in E; lia].
    apply Hidx; lia.
  - destruct (y c <? length g - 1) eqn:E; [|apply Nat.ltb_ge in E; lia].
    apply Hidx; lia.
  - destruct (0 <? x c) eqn:E; [|apply Nat.ltb_ge in E; lia].
    apply Hidx; lia.
  - destruct (Hright eq_refl) as (row0 & -> & Hlt).
    destruct (x c <? length row0 - 1) eqn:E; [|apply Nat.ltb_ge in E; lia].
    apply Hidx; lia.
Qed.

(** In the grid of a rectangular text every cell's column lies within the
    first row. *)
Lemma rectangular_first_row w s e m c :
  rectangular m → in_grid (buildGrid w s e m) c →
  ∃ row0, buildGrid w s e m !! 0 = Some row0 ∧ x c < length row0.
Proof.
  intros Hrect Hc. destruct (in_grid_lookup _ _ Hc) as (row & Hrow & Hx).
  pose proof (lookup_lt_Some _ _ _ Hrow) as Hlen.
  pose proof (lookup_lt_Some _ _ _ Hx) as Hlenx.
  destruct (lookup_lt_is_Some_2 (buildGrid w s e m) 0) as [row0 Hrow0]; [lia|].
  exists row0. split; [done|].
  rewrite buildGrid_lookup in Hrow, Hrow0.
  destruct (m !! y c) as [r|] eqn:Hr; [|done].
  destruct (m !! 0) as [r0|] eqn:Hr0; [|done].
  simpl in *. injection Hrow as <-. injection Hrow0 as <-.
  rewrite length_imap in *. destruct Hrect as [width Hrect].
  rewrite Forall_lookup in Hrect.
  by rewrite (Hrect _ _ Hr0), <- (Hrect _ _ Hr).
Qed.

(** On a rectangular text the edges of the search are exactly the moves of
    the maze graph into cells that are not walls. *)
Lemma adjacent_step w s e m c c' :
  rectangular m →
  in_grid (buildGrid w s e m) c → in_grid (buildGrid w s e m) c' →
  adjacent c c' → type c' ≠ Wall → step (buildGrid w s e m) c c'.
Proof.
  intros Hrect Hc Hc' [d Hd]%adjacent_moved Hnw. exists d. split; [|done].
  apply moved_getNextCell; try done.
  intros _. by apply rectangular_first_row.
Qed.

Lemma step_adjacent g c c' :
  wf_grid g → step g c c' → in_grid g c' ∧ type c' ≠ Wall ∧ adjacent c c'.
Proof.
  intros Hwf (d & Hnext & Hnw).
  destruct (getNextCell_Some _ _ _ _ Hwf Hnext) as [Hc' Hm].
  repeat split; try done. apply adjacent_moved. eauto.
Qed.

Lemma is_walk_snoc g p c c' :
  is_walk g p → last p = Some c →
  in_grid g c' → type c' ≠ Wall → adjacent c c' →
  is_walk g (p ++ [c']).
Proof.
  intros Hw Hl Hc' Hnw Hadj. induction p as [|a p IH]; [done|].
  destruct Hw as (Ha & Hna & Hnext & Hw).
  destruct p as [|b p].
  - simpl in Hl. injection Hl as ->. simpl. tauto.
  - specialize (IH Hw Hl). simpl in *. tauto.
Qed.

(** The path of every queue entry is a walk of the maze graph. *)
Lemma derived_walk g mk s ds n :
  wf_grid g → in_grid g s → type s ≠ Wall →
  derived g mk s ds n → is_walk g (path n).
Proof.
  intros Hwf Hs Hsw. induction 1 as [|ds d n m Hn IH Hch].
  - simpl. tauto.
  - pose proof Hch as (Hnext & Hnw & -> & _).
    destruct (derived_facts _ _ _ _ _ Hn) as (_ & Hl & _).
    destruct (step_adjacent g (cell n) (cell m) Hwf) as (? & ? & ?).
    { by exists d. }
    by eapply is_walk_snoc.
Qed.

(** A walk that continues a chain of edges is a longer chain of edges. *)
Lemma walk_reach w st en m s k c p c' :
  rectangular m →
  reach (buildGrid w st en m) s k c →
  is_walk (buildGrid w st en m) (c :: p) → last (c :: p) = Some c' →
  reach (buildGrid w st en m) s (k + length p) c'.
Proof.
  intros Hrect. revert k c. induction p as [|b p IH]; intros k c Hr Hw Hl.
  - simpl in *. injection Hl as <-. by rewrite Nat.add_0_r.
  - destruct Hw as (Hc & _ & Hadj & Hw). pose proof Hw as (Hb & Hnb & _).
    simpl length. replace (k + S (length p)) with (S k + length p) by lia.
    apply (IH (S k) b); [|done|done].
    econstructor; [done|]. by apply adjacent_step.
Qed.

(** ** Designated start and end *)

Lemma find_app {A} (f : A → bool) l1 l2 :
  find f (l1 ++ l2) = match find f l1 with Some a => Some a | None => find f l2 end.
Proof. induction l1 as [|a l1 IH]; simpl; [done|]. by destruct (f a). Qed.

Lemma find_lookup_first {A} (f : A → bool) (l : list A) a :
  find f l = Some a →
  ∃ i, l !! i = Some a ∧ f a = true
       ∧ ∀ i' a', l !! i' = Some a' → f a' = true → i ≤ i'.
Proof.
  induction l as [|b l IH]; simpl; [done|].
  destruct (f b) eqn:Hb.
  - intros [= ->]. exists 0. repeat split; try done. intros; lia.
  - intros (i & Hi & Ha & Hmin)%IH. exists (S i). repeat split; try done.
    intros [|i'] a'; simpl.
    + intros [= ->] ?. congruence.
    + intros ? ?. apply le_n_S. by eapply Hmin.
Qed.

Lemma find_lookup_none {A} (f : A → bool) (l : list A) :
  find f l = None → ∀ i a, l !! i = Some a → f a = false.
Proof.
  induction l as [|b l IH]; simpl; [done|].
  destruct (f b) eqn:Hb; [done|]. intros Hn [|i] a; simpl.
  - by intros [= <-].
  - by apply IH.
Qed.

Lemma has_type_true t c : has_type t c = true ↔ type c = t.
Proof. unfold has_type. by rewrite bool_decide_eq_true. Qed.

Lemma find_type_first t g c :
  find_type t g = Some c →
  ∃ i j, cell_at g i j = Some c ∧ type c = t
         ∧ ∀ i' j' c', cell_at g i' j' = Some c' → type c' = t →
                       j < j' ∨ (j = j' ∧ i ≤ i').
Proof.
  unfold find_type. induction g as [|row g IH]; simpl; [done|].
  rewrite find_app. destruct (find (has_type t) row) as [a|] eqn:Hrow.
  - intros [= ->]. destruct (find_lookup_first _ _ _ Hrow) as (i & Hi & Ht & Hmin).
    exists i, 0. split; [done|]. split; [by apply has_type_true|].
    intros i' [|j'] c' Hc' Ht'; [|lia]. right. split; [done|].
    eapply Hmin; [exact Hc'|]. by apply has_type_true.
  - intros (i & j & Hc & Ht & Hmin)%IH. exists i, (S j).
    split; [done|]. split; [done|].
    intros i' [|j'] c' Hc' Ht'.
    + pose proof (find_lookup_none _ _ Hrow i' c' Hc') as Hf.
      apply has_type_true in Ht'. congruence.
    + destruct (Hmin i' j' c' Hc' Ht'); lia.
Qed.

Lemma find_type_none t g :
  find_type t g = None → ∀ i j c, cell_at g i j = Some c → type c ≠ t.
Proof.
  unfold find_type. induction g as [|row g IH]; simpl.
  - intros _ i j c. unfold cell_at. by rewrite lookup_nil.
  - rewrite find_app. destruct (find (has_type t) row) as [a|] eqn:Hrow; [done|].
    intros Hg i [|j] c Hc Ht.
    + pose proof (find_lookup_none _ _ Hrow i c Hc) as Hf.
      apply has_type_true in Ht. congruence.
    + by eapply IH.
Qed.

Lemma synced_wf st : synced st → wf_grid (mazeGrid st).
Proof. intros (-> & _). apply buildGrid_wf. Qed.

Lemma synced_shape st : synced st → same_shape (init_visited (maze st)) (mazeGrid st).
Proof. intros (-> & _). apply same_shape_init. Qed.

Lemma find_type_in_grid t g c :
  wf_grid g → find_type t g = Some c → in_grid g c ∧ type c = t.
Proof.
  intros Hwf (i & j & Hc & Ht & _)%find_type_first.
  split; [by eapply cell_at_in_grid|done].
Qed.

Lemma synced_start st s :
  synced st → start st = Some s → in_grid (mazeGrid st) s ∧ type s = Start.
Proof.
  intros Hsy Hs. pose proof (synced_wf _ Hsy) as Hwf.
  destruct Hsy as (_ & Hst & _). rewrite Hst in Hs. by apply find_type_in_grid.
Qed.

Lemma synced_end st e :
  synced st → end_ st = Some e → in_grid (mazeGrid st) e ∧ type e = End.
Proof.
  intros Hsy He. pose proof (synced_wf _ Hsy) as Hwf.
  destruct Hsy as (_ & _ & Hen). rewrite Hen in He. by apply find_type_in_grid.
Qed.

(** ** The search as a whole *)

Lemma same_pos_true c e : same_pos c e = true ↔ x c = x e ∧ y c = y e.
Proof.
  unfold same_pos. rewrite andb_true_iff, !Nat.eqb_eq. done.
Qed.

(** From a state left by the effect, with both endpoints present, the search
    neither throws nor runs out of fuel.  It ends either with [NoPathFound],
    and then no chain of edges leads from the start to the end, or with the
    entry of the end cell, and then no chain of edges reaches the end in
    fewer steps than that entry's path. *)
Lemma search_correct st s e :
  synced st → start st = Some s → end_ st = Some e →
  (search st = NoPathFound ∧ ∀ k, ¬ reach (mazeGrid st) s k e)
  ∨ (∃ ds p m,
       search st = Found p m
       ∧ derived (mazeGrid st) (moveKeys st) s ds {| cell := e; path := p; moves := m |}
       ∧ ∀ k, reach (mazeGrid st) s k e → length ds ≤ k).
Proof.
  intros Hsy Hs He. unfold search. rewrite Hs, He.
  pose proof (synced_wf _ Hsy) as Hwf.
  destruct (synced_start _ _ Hsy Hs) as [Hsg _].
  destruct (synced_end _ _ Hsy He) as [Heg _].
  destruct (bfs_loop_correct (mazeGrid st) (moveKeys st) s e Hwf
              (search_fuel (maze st)) (init_visited (maze st))
              [ {| cell := s; path := [s]; moves := [] |} ])
    as [[-> Hno]|(n & ds & -> & Hder & Hn & Hpos & Hmin)].
  - apply bfs_inv_initial; [done|by apply synced_shape].
  - pose proof (search_fuel_initial (maze st)). simpl. lia.
  - left. split; [done|]. intros k Hr. specialize (Hno k e Hr).
    assert (same_pos e e = true) by by apply same_pos_true. congruence.
  - right. apply same_pos_true in Hpos as [Hx Hy].
    pose proof (in_grid_same_pos _ _ _ Hn Heg Hx Hy) as Hcell.
    destruct n as [cn pn mn]. simpl in *. subst cn.
    exists ds, pn, mn. split; [done|]. split; [done|].
    intros k Hr. apply (Hmin k e Hr). by apply same_pos_true.
Qed.

Lemma bfs_loop_more_fuel g mk e fuel :
  ∀ fuel' v q,
    fuel ≤ fuel' → bfs_loop fuel g mk e v q ≠ OutOfFuel →
    bfs_loop fuel' g mk e v q = bfs_loop fuel g mk e v q.
Proof.
  induction fuel as [|fuel IH]; intros fuel' v q Hle Hne; [done|].
  destruct fuel' as [|fuel']; [lia|]. simpl in *.
  destruct (loop_body g mk e v q) as [o|v' q']; [done|].
  apply IH; [lia|done].
Qed.

(** The bound [search_fuel] is never reached, and no [TypeError] is thrown:
    the loop gives the same outcome with any larger bound. *)
Lemma search_fuel_enough st s e fuel :
  synced st → start st = Some s → end_ st = Some e →
  search_fuel (maze st) ≤ fuel →
  search st ≠ OutOfFuel ∧ search st ≠ Crashed
  ∧ bfs_loop fuel (mazeGrid st) (moveKeys st) e (init_visited (maze st))
      [ {| cell := s; path := [s]; moves := [] |} ]
    = search st.
Proof.
  intros Hsy Hs He Hle.
  assert (Hne : search st ≠ OutOfFuel ∧ search st ≠ Crashed).
  { destruct (search_correct _ _ _ Hsy Hs He) as [[-> _]|(ds & p & m & -> & _)]; done. }
  destruct Hne as [Hfuel Hcrash]. split; [done|]. split; [done|].
  unfold search in *. rewrite Hs, He in *. by apply bfs_loop_more_fuel.
Qed.

Lemma solveMaze_outcome s : (solveMaze s).2 = search (ui s).
Proof. unfold solveMaze. by destruct (search (ui s)). Qed.

Lemma connects_reach st s e q :
  synced st → rectangular (maze st) → connects (mazeGrid st) s e q →
  ∃ k, S k = length q ∧ reach (mazeGrid st) s k e.
Proof.
  intros Hsy Hrect (Hw & Hh & Hl).
  destruct q as [|c q]; [done|]. simpl in Hh. injection Hh as ->.
  exists (length q). split; [done|].
  destruct Hsy as (Hg & _). rewrite Hg in *.
  apply (walk_reach _ _ _ _ s 0 s q e Hrect); [constructor|done..].
Qed.

Lemma derived_connects st s e ds p m :
  synced st → start st = Some s →
  derived (mazeGrid st) (moveKeys st) s ds {| cell := e; path := p; moves := m |} →
  connects (mazeGrid st) s e p ∧ length p = S (length ds).
Proof.
  intros Hsy Hs Hder.
  destruct (synced_start _ _ Hsy Hs) as [Hsg Hst].
  destruct (derived_facts _ _ _ _ _ Hder) as (Hh & Hl & Hlen & _).
  assert (Hsw : type s ≠ Wall) by by rewrite Hst.
  pose proof (derived_walk _ _ _ _ _ (synced_wf _ Hsy) Hsg Hsw Hder) as Hw.
  done.
Qed.

(** ** Shortest paths *)

(** C1, as stated, fails on a ragged grid: in the grid of the lines [P] and
    [.E] the end is reachable from the start by the walk down, right, yet the
    search reports that there is no path, because a move to the right is
    bounded by the length of the first line. *)
Lemma solve_misses_path_on_ragged_grid :
  synced raggedMaze
  ∧ start raggedMaze = Some (mkCell 0 0 Start)
  ∧ end_ raggedMaze = Some (mkCell 1 1 End)
  ∧ connects (mazeGrid raggedMaze) (mkCell 0 0 Start) (mkCell 1 1 End)
      [mkCell 0 0 Start; mkCell 0 1 Path; mkCell 1 1 End]
  ∧ (solveMaze (mkSession raggedMaze [])).2 = NoPathFound.
Proof.
  repeat split; try done.
  - right; left. simpl. lia.
  - do 3 right. simpl. lia.
Qed.

(** C1 (amended to rectangular grids): when the lines of the maze all have
    the same length and the end is reachable from the start by
    four-directional moves through cells that are not walls, [solveMaze]
    finds a path; that path is a walk from the start to the end, both
    included, and no walk from the start to the end has fewer cells, so its
    number of edges is the graph distance. *)
Theorem solve_shortest_on_rectangular (sess : Session) (s e : Cell) :
  synced (ui sess) → rectangular (maze (ui sess)) →
  start (ui sess) = Some s → end_ (ui sess) = Some e →
  (∃ q, connects (mazeGrid (ui sess)) s e q) →
  ∃ p m, (solveMaze sess).2 = Found p m
    ∧ connects (mazeGrid (ui sess)) s e p
    ∧ ∀ q, connects (mazeGrid (ui sess)) s e q → length p ≤ length q.
Proof.
  intros Hsy Hrect Hs He [q0 Hq0]. rewrite solveMaze_outcome.
  destruct (search_correct _ _ _ Hsy Hs He) as [[_ Hno]|(ds & p & m & -> & Hder & Hmin)].
  - destruct (connects_reach _ _ _ _ Hsy Hrect Hq0) as (k & _ & Hr).
    by destruct (Hno k).
  - exists p, m. split; [done|].
    destruct (derived_connects _ _ _ _ _ _ Hsy Hs Hder) as [Hc Hlen].
    split; [done|]. intros q Hq.
    destruct (connects_reach _ _ _ _ Hsy Hrect Hq) as (k & Hk & Hr).
    specialize (Hmin k Hr). lia.
Qed.

Lemma solve_shortest_on_rectangular_witness :
  ∃ p m, (solveMaze (mkSession demo [])).2 = Found p m
    ∧ connects (mazeGrid demo) (mkCell 1 1 Start) (mkCell 2 2 End) p
    ∧ ∀ q, connects (mazeGrid demo) (mkCell 1 1 Start) (mkCell 2 2 End) q →
           length p ≤ length q.
Proof.
  apply (solve_shortest_on_rectangular (mkSession demo [])
           (mkCell 1 1 Start) (mkCell 2 2 End)).
  - apply synced_setMaze. simpl. lia.
  - exists 3. repeat constructor.
  - reflexivity.
  - reflexivity.
  - exists [mkCell 1 1 Start; mkCell 2 1 Path; mkCell 2 2 End].
    repeat split; try done.
    + do 3 right. simpl. lia.
    + right; left. simpl. lia.
Defined.

(** ** Refusal and failure *)

(** C3: when the designated start or the designated end is absent,
    [solveMaze] returns at its guard: no search is run and the whole state
    (grid, cursor, solution string, pending replays) is what it was. *)
Theorem solve_refuses_without_endpoint (sess : Session) :
  start (ui sess) = None ∨ end_ (ui sess) = None →
  search (ui sess) = MissingEndpoint ∧ solveMaze sess = (sess, MissingEndpoint).
Proof.
  intros H.
  assert (Hsearch : search (ui sess) = MissingEndpoint).
  { unfold search. destruct H as [-> | ->]; [done|]. by destruct (start (ui sess)). }
  split; [done|]. unfold solveMaze. by rewrite Hsearch.
Qed.

Lemma solve_refuses_without_endpoint_witness :
  search noEndMaze = MissingEndpoint
  ∧ solveMaze (mkSession noEndMaze []) = (mkSession noEndMaze [], MissingEndpoint).
Proof.
  apply (solve_refuses_without_endpoint (mkSession noEndMaze [])).
  right. reflexivity.
Defined.

(** C4: with both endpoints present and the end not reachable from the
    start, the search runs until the queue is empty and [solveMaze] reports
    [NoPathFound]; the session it leaves is the one it was given, so grid,
    cursor and solution string are unchanged and no replay is started. *)
Theorem solve_reports_no_path (sess : Session) (s e : Cell) :
  synced (ui sess) →
  start (ui sess) = Some s → end_ (ui sess) = Some e →
  (¬ ∃ q, connects (mazeGrid (ui sess)) s e q) →
  solveMaze sess = (sess, NoPathFound).
Proof.
  intros Hsy Hs He Hno.
  destruct (search_correct _ _ _ Hsy Hs He) as [[Hsearch _]|(ds & p & m & _ & Hder & _)].
  - unfold solveMaze. by rewrite Hsearch.
  - destruct Hno. exists p. by destruct (derived_connects _ _ _ _ _ _ Hsy Hs Hder).
Qed.

Lemma walledMaze_unreachable :
  ¬ ∃ q, connects (mazeGrid walledMaze) (mkCell 0 0 Start) (mkCell 2 0 End) q.
Proof.
  assert (Hstay : ∀ q c, is_walk (mazeGrid walledMaze) (c :: q) → x c = 0 →
                         last (c :: q) ≠ Some (mkCell 2 0 End)).
  { induction q as [|b q IH]; intros c Hw Hx.
    - simpl. intros [= ->]. done.
    - destruct Hw as (Hc & _ & Hadj & Hw).
      pose proof Hw as (Hb & Hnw & _).
      apply (IH b Hw).
      destruct (in_grid_lookup _ _ Hb) as (row & Hrow & Hbx).
      assert (y b = 0) as Hy.
      { apply lookup_lt_Some in Hrow. simpl in Hrow. lia. }
      rewrite Hy in Hrow. injection Hrow as <-.
      destruct (x b) as [|[|[|]]] eqn:Hxb; simpl in Hbx; try done.
      + injection Hbx as <-. done.
      + exfalso. destruct Hadj as [[? ?]|[[? ?]|[[? ?]|[? ?]]]]; lia. }
  intros (q & Hw & Hh & Hl). destruct q as [|c q]; [done|].
  injection Hh as ->. by apply (Hstay q (mkCell 0 0 Start)).
Qed.

Lemma solve_reports_no_path_witness :
  solveMaze (mkSession walledMaze []) = (mkSession walledMaze [], NoPathFound).
Proof.
  apply (solve_reports_no_path (mkSession walledMaze [])
           (mkCell 0 0 Start) (mkCell 2 0 End)).
  - apply synced_setMaze. simpl. lia.
  - reflexivity.
  - reflexivity.
  - exact walledMaze_unreachable.
Defined.

(** ** Grid builder *)

Lemma rebuild_synced st : maze st ≠ [] → synced (rebuild st).
Proof.
  intros Hm. unfold rebuild.
  destruct (decide (0 < length (maze st))) as [?|Hn]; [by repeat split|].
  destruct (maze st); [done|]. simpl in Hn. lia.
Qed.

Lemma find_type_first_of_kind g t :
  wf_grid g → first_of_kind g t (find_type t g).
Proof.
  intros Hwf. unfold first_of_kind.
  destruct (find_type t g) as [c|] eqn:Hf.
  - destruct (find_type_first _ _ _ Hf) as (i & j & Hc & Ht & Hmin).
    destruct (Hwf _ _ _ Hc) as [Hx Hy].
    split; [by eapply cell_at_in_grid|]. split; [done|].
    intros c' Hc' Ht'. unfold row_major_le. rewrite Hx, Hy.
    destruct (Hmin _ _ _ Hc' Ht'); [by left|by right].
  - intros c' Hc'. by eapply find_type_none.
Qed.

(** C6: after the effect has built the grid, the designated start is the
    first cell in row-major order whose kind is [Start], the designated end
    the first whose kind is [End], and each is absent exactly when the grid
    has no cell of that kind; a later cell of the same kind changes
    nothing. *)
Theorem designated_endpoints_first_in_row_major (st : State) :
  maze st ≠ [] →
  first_of_kind (mazeGrid (rebuild st)) Start (start (rebuild st))
  ∧ first_of_kind (mazeGrid (rebuild st)) End (end_ (rebuild st)).
Proof.
  intros Hm. pose proof (rebuild_synced st Hm) as Hsy.
  pose proof (synced_wf _ Hsy) as Hwf.
  destruct Hsy as (_ & -> & ->).
  split; by apply find_type_first_of_kind.
Qed.

Lemma designated_endpoints_first_in_row_major_witness :
  first_of_kind (mazeGrid (rebuild twoStartsMaze)) Start (Some (mkCell 2 0 Start))
  ∧ first_of_kind (mazeGrid (rebuild twoStartsMaze)) End (Some (mkCell 1 0 End)).
Proof.
  apply (designated_endpoints_first_in_row_major twoStartsMaze).
  discriminate.
Defined.

Lemma classify_cases w s e ch :
  (char_string ch = w → classify w s e ch = Wall)
  ∧ (char_string ch ≠ w → char_string ch = s → classify w s e ch = Start)
  ∧ (char_string ch ≠ w → char_string ch ≠ s → char_string ch = e →
     classify w s e ch = End)
  ∧ (char_string ch ≠ w → char_string ch ≠ s → char_string ch ≠ e →
     classify w s e ch = Path).
Proof.
  unfold classify.
  destruct (String.eqb_spec (char_string ch) w);
    destruct (String.eqb_spec (char_string ch) s);
    destruct (String.eqb_spec (char_string ch) e); done.
Qed.

(** C7: the grid the effect builds has exactly one cell per character of the
    text, stored at the character's column and line and carrying those as
    its coordinates, and its kind follows from the character alone, by
    precedence: the wall symbol gives [Wall]; otherwise the start symbol
    gives [Start]; otherwise the end symbol gives [End]; every other
    character gives [Path], whatever the path symbol is. *)
Theorem cell_kind_by_precedence (st : State) (i j : nat) :
  maze st ≠ [] →
  match cell_at (mazeGrid (rebuild st)) i j, char_at (maze st) i j with
  | Some c, Some ch =>
      x c = i ∧ y c = j
      ∧ (char_string ch = wallSymbol st → type c = Wall)
      ∧ (char_string ch ≠ wallSymbol st → char_string ch = startSymbol st →
         type c = Start)
      ∧ (char_string ch ≠ wallSymbol st → char_string ch ≠ startSymbol st →
         char_string ch = endSymbol st → type c = End)
      ∧ (char_string ch ≠ wallSymbol st → char_string ch ≠ startSymbol st →
         char_string ch ≠ endSymbol st → type c = Path)
  | None, None => True
  | _, _ => False
  end.
Proof.
  intros Hm. unfold rebuild.
  destruct (decide (0 < length (maze st))) as [?|Hn];
    [|destruct (maze st); [done|simpl in Hn; lia]].
  simpl. rewrite cell_at_buildGrid.
  destruct (char_at (maze st) i j) as [ch|]; simpl; [|done].
  split; [done|]. split; [done|]. apply classify_cases.
Qed.

Lemma cell_kind_by_precedence_witness :
  match cell_at (mazeGrid (rebuild clashMaze)) 0 0, char_at (maze clashMaze) 0 0 with
  | Some c, Some ch =>
      x c = 0 ∧ y c = 0
      ∧ (char_string ch = wallSymbol clashMaze → type c = Wall)
      ∧ (char_string ch ≠ wallSymbol clashMaze →
         char_string ch = startSymbol clashMaze → type c = Start)
      ∧ (char_string ch ≠ wallSymbol clashMaze →
         char_string ch ≠ startSymbol clashMaze →
         char_string ch = endSymbol clashMaze → type c = End)
      ∧ (char_string ch ≠ wallSymbol clashMaze →
         char_string ch ≠ startSymbol clashMaze →
         char_string ch ≠ endSymbol clashMaze → type c = Path)
  | None, None => True
  | _, _ => False
  end.
Proof.
  apply (cell_kind_by_precedence clashMaze 0 0). discriminate.
Defined.

Example clashMaze_kinds :
  map (map type) (mazeGrid clashMaze) = [[Wall; Path; Path]].
Proof. reflexivity. Qed.

(** ** The move string *)

Lemma length_one_char k : String.length k = 1 → ∃ ch, k = char_string ch.
Proof.
  destruct k as [|ch [|??]]; simpl; try done. intros _. by exists ch.
Qed.

Lemma join_cons_char ch l : join (char_string ch :: l) = String ch (join l).
Proof. unfold join. simpl. by destruct l. Qed.

Lemma join_single_chars l :
  (∀ k, k ∈ l → String.length k = 1) →
  String.length (join l) = length l
  ∧ ∀ i k, l !! i = Some k →
           ∃ ch, k = char_string ch ∧ String.get i (join l) = Some ch.
Proof.
  induction l as [|a l IH]; intros Hall.
  - split; [done|]. intros i k. by rewrite lookup_nil.
  - destruct (length_one_char a) as [ch ->]; [apply Hall; by constructor|].
    destruct IH as [IHlen IHget]; [intros k Hk; apply Hall; by constructor|].
    rewrite join_cons_char. split; [simpl; by rewrite IHlen|].
    intros [|i] k; simpl.
    + intros [= <-]. by exists ch.
    + apply IHget.
Qed.

(** Each direction recorded for an entry leads from one cell of its path to
    the next. *)
Lemma derived_steps g mk s ds n :
  derived g mk s ds n →
  ∀ i d, ds !! i = Some d →
    ∃ c c', path n !! i = Some c ∧ path n !! S i = Some c'
            ∧ getNextCell g c d = Val (Some c').
Proof.
  induction 1 as [|ds d n m Hn IH (Hnext & _ & Hp & _)]; intros i d'.
  - by rewrite lookup_nil.
  - destruct (derived_facts _ _ _ _ _ Hn) as (_ & Hl & Hlen & _).
    rewrite Hp. intros Hi. apply lookup_app_Some in Hi as [Hi|[Hge Hi]].
    + destruct (IH _ _ Hi) as (c & c' & Hc & Hc' & Hstep).
      exists c, c'. split; [by apply lookup_app_l_Some|].
      split; [by apply lookup_app_l_Some|done].
    + apply list_lookup_singleton_Some in Hi as [Hi <-].
      assert (i = length ds) as -> by lia.
      exists (cell n), (cell m). split; [|split; [|done]].
      * apply lookup_app_l_Some. rewrite last_lookup, Hlen in Hl. exact Hl.
      * rewrite lookup_app_r by lia. rewrite Hlen. by rewrite Nat.sub_diag.
Qed.

Lemma solveMaze_Found sess s' p m :
  solveMaze sess = (s', Found p m) →
  search (ui sess) = Found p m
  ∧ ui s' = setSolutionMoves (join m) (ui (animatePath p sess))
  ∧ pending s' = pending (animatePath p sess).
Proof.
  unfold solveMaze. destruct (search (ui sess)) as [|p' m'| | |]; try done.
  by intros [= <- <- <-].
Qed.

Lemma search_Found_endpoints st p m :
  search st = Found p m → ∃ s e, start st = Some s ∧ end_ st = Some e.
Proof.
  unfold search. destruct (start st) as [s|], (end_ st) as [e|]; try done. eauto.
Qed.

(** What a successful search returns is the path and the moves of a queue
    entry on the end cell. *)
Lemma search_Found_derived st p m :
  synced st → search st = Found p m →
  ∃ s e ds, start st = Some s ∧ end_ st = Some e
    ∧ derived (mazeGrid st) (moveKeys st) s ds {| cell := e; path := p; moves := m |}.
Proof.
  intros Hsy Hf. destruct (search_Found_endpoints _ _ _ Hf) as (s & e & Hs & He).
  exists s, e.
  destruct (search_correct _ _ _ Hsy Hs He) as [[Hn _]|(ds & p' & m' & Hf' & Hder & _)];
    [congruence|].
  rewrite Hf in Hf'. injection Hf' as <- <-. by exists ds.
Qed.

(** C5, as amended: on success the moves are one per step of the returned
    path, the move of a step being the key bound to the direction that leads
    from the step's cell to the next one, and the solution string is their
    concatenation in path order; when the four key bindings are single
    characters the string therefore has one character per step, the path's
    cell count minus one in all, and its [i]-th character is the key of the
    [i]-th step. *)
Theorem moves_follow_path (sess s' : Session) (p : list Cell) (m : list string) :
  synced (ui sess) →
  solveMaze sess = (s', Found p m) →
  solutionMoves (ui s') = join m
  ∧ length m + 1 = length p
  ∧ (∀ i c c', p !! i = Some c → p !! S i = Some c' →
       ∃ d, moved d c c'
         ∧ getNextCell (mazeGrid (ui sess)) c d = Val (Some c')
         ∧ m !! i = Some (getKeyForDirection (moveKeys (ui sess)) d))
  ∧ (single_char_keys (moveKeys (ui sess)) →
     String.length (join m) + 1 = length p
     ∧ ∀ i c c', p !! i = Some c → p !! S i = Some c' →
         ∃ d ch, moved d c c'
           ∧ getNextCell (mazeGrid (ui sess)) c d = Val (Some c')
           ∧ m !! i = Some (getKeyForDirection (moveKeys (ui sess)) d)
           ∧ getKeyForDirection (moveKeys (ui sess)) d = char_string ch
           ∧ String.get i (join m) = Some ch).
Proof.
  intros Hsy (Hf & Hui & _)%solveMaze_Found.
  destruct (search_Found_derived _ _ _ Hsy Hf) as (s & e & ds & Hs & He & Hder).
  destruct (derived_facts _ _ _ _ _ Hder) as (_ & _ & Hlen & Hm). simpl in Hlen, Hm.
  assert (Hstep : ∀ i c c', p !! i = Some c → p !! S i = Some c' →
            ∃ d, moved d c c'
              ∧ getNextCell (mazeGrid (ui sess)) c d = Val (Some c')
              ∧ m !! i = Some (getKeyForDirection (moveKeys (ui sess)) d)).
  { intros i c c' Hc Hc'.
    destruct (lookup_lt_is_Some_2 ds i) as [d Hd].
    { apply lookup_lt_Some in Hc'. lia. }
    destruct (derived_steps _ _ _ _ _ Hder i d Hd) as (c0 & c0' & Hc0 & Hc0' & Hnext).
    simpl in Hc0, Hc0'. rewrite Hc in Hc0. rewrite Hc' in Hc0'.
    injection Hc0 as <-. injection Hc0' as <-.
    destruct (getNextCell_Some _ _ _ _ (synced_wf _ Hsy) Hnext) as [_ Hmoved].
    exists d. split; [done|]. split; [done|].
    by rewrite Hm, list_lookup_fmap, Hd. }
  split; [by rewrite Hui|]. split; [rewrite Hm, length_map; lia|].
  split; [exact Hstep|].
  intros Hkeys.
  destruct (join_single_chars m) as [Hjlen Hjget].
  { intros k Hk. rewrite Hm in Hk. apply list_elem_of_fmap in Hk as (d & -> & _).
    apply Hkeys. }
  split; [rewrite Hjlen, Hm, length_map; lia|].
  intros i c c' Hc Hc'.
  destruct (Hstep i c c' Hc Hc') as (d & Hmoved & Hnext & Hmi).
  destruct (Hjget _ _ Hmi) as (ch & Hch & Hget).
  by exists d, ch.
Qed.

Lemma moves_follow_path_witness :
  solutionMoves (ui (solveMaze (mkSession demo [])).1) = join ["s"; "d"]
  ∧ length ["s"; "d"] + 1 = length demoPath
  ∧ (∀ i c c', demoPath !! i = Some c → demoPath !! S i = Some c' →
       ∃ d, moved d c c'
         ∧ getNextCell (mazeGrid demo) c d = Val (Some c')
         ∧ ["s"; "d"] !! i = Some (getKeyForDirection (moveKeys demo) d))
  ∧ (single_char_keys (moveKeys demo) →
     String.length (join ["s"; "d"]) + 1 = length demoPath
     ∧ ∀ i c c',
         demoPath !! i = Some c → demoPath !! S i = Some c' →
         ∃ d ch, moved d c c'
           ∧ getNextCell (mazeGrid demo) c d = Val (Some c')
           ∧ ["s"; "d"] !! i = Some (getKeyForDirection (moveKeys demo) d)
           ∧ getKeyForDirection (moveKeys demo) d = char_string ch
           ∧ String.get i (join ["s"; "d"]) = Some ch).
Proof.
  apply (moves_follow_path (mkSession demo []) (solveMaze (mkSession demo [])).1
           demoPath ["s"; "d"]).
  - apply synced_setMaze. simpl. lia.
  - reflexivity.
Defined.

(** C5 as stated, at a binding that is not one character.  The field of a
    move key takes at most one character and can be emptied; the binding is
    then the empty string.  With the down key emptied, the solve of the maze
    of the specification succeeds with its path of two steps, down and
    right, and the solution string is the one character of the right key. *)
Lemma solution_shorter_than_path_with_empty_key :
  getKeyForDirection (moveKeys emptyKeyDemo) Down = EmptyString
  ∧ ∃ s' m,
      solveMaze (mkSession emptyKeyDemo []) = (s', Found demoPath m)
      ∧ length demoPath = 3
      ∧ solutionMoves (ui s') = "d"
      ∧ String.length (solutionMoves (ui s')) + 1 ≠ length demoPath
      ∧ String.get 1 (solutionMoves (ui s')) = None.
Proof.
  split; [reflexivity|].
  exists (solveMaze (mkSession emptyKeyDemo [])).1, [EmptyString; "d"].
  split; [reflexivity|]. split; [reflexivity|]. split; [reflexivity|].
  split; [|reflexivity]. vm_compute. lia.
Qed.

(** ** Manual moves *)

(** A key event on a cursor that is a cell of the grid never throws; it
    either changes nothing or puts the cursor on the cell [getNextCell]
    returns for the mapped direction, which is not a wall. *)
Lemma handleKeyPress_cases st key :
  (∀ c, currentPos st = Some c → in_grid (mazeGrid st) c) →
  handleKeyPress st key = Val st
  ∨ ∃ cur d c,
      isAnimating st = false
      ∧ currentPos st = Some cur
      ∧ key_direction (moveKeys st) (toLowerCase key) = Some d
      ∧ getNextCell (mazeGrid st) cur d = Val (Some c)
      ∧ type c ≠ Wall
      ∧ handleKeyPress st key = Val (setCurrentPos (Some c) st).
Proof.
  intros Hcur. unfold handleKeyPress.
  destruct (isAnimating st) eqn:Han; [by left|].
  destruct (key_direction (moveKeys st) (toLowerCase key)) as [d|] eqn:Hd; [|by left].
  destruct (currentPos st) as [cur|] eqn:Hc; [|by left].
  destruct (getNextCell_no_throw (mazeGrid st) cur d (Hcur cur eq_refl)) as [r Hr].
  rewrite Hr. simpl. destruct r as [c|]; [|by left].
  destruct (is_wall (type c)) eqn:Hw; simpl; [by left|].
  right. exists cur, d, c. apply is_wall_false in Hw. by repeat split.
Qed.

Lemma key_press_ignored_during_replay st key :
  isAnimating st = true → handleKeyPress st key = Val st.
Proof. unfold handleKeyPress. by intros ->. Qed.

Lemma key_press_keeps_cursor_ok s key :
  synced (ui s) → cursor_ok (ui s) →
  synced (ui (dispatch s (KeyPress key)))
  ∧ cursor_ok (ui (dispatch s (KeyPress key)))
  ∧ mazeGrid (ui (dispatch s (KeyPress key))) = mazeGrid (ui s).
Proof.
  intros Hsy Hok. simpl.
  destruct (handleKeyPress_cases (ui s) key) as [->|(cur & d & c & _ & _ & _ & Hnext & Hnw & ->)].
  { intros c Hc. by apply Hok. }
  - done.
  - simpl. split; [done|]. split; [|done].
    intros c' [= <-]. simpl.
    by destruct (getNextCell_Some _ _ _ _ (synced_wf _ Hsy) Hnext).
Qed.

Lemma key_presses_keep_cursor_ok keys s :
  synced (ui s) → cursor_ok (ui s) →
  synced (ui (run s (map KeyPress keys)))
  ∧ cursor_ok (ui (run s (map KeyPress keys)))
  ∧ mazeGrid (ui (run s (map KeyPress keys))) = mazeGrid (ui s).
Proof.
  revert s. induction keys as [|key keys IH]; intros s Hsy Hok; [done|].
  destruct (key_press_keeps_cursor_ok s key Hsy Hok) as (Hsy' & Hok' & Hg).
  change (run s (map KeyPress (key :: keys)))
    with (run (dispatch s (KeyPress key)) (map KeyPress keys)).
  destruct (IH _ Hsy' Hok') as (? & ? & Hg'). by rewrite Hg'.
Qed.

(** C8, as stated, fails on a ragged grid: the cursor is on the cell at
    column 1 of line 1, no replay is in progress, the key [d] maps to the
    direction right, the neighbour at column 2 of line 1 is a cell of the
    grid and a path cell, and yet the key event leaves the cursor where it
    is. *)
Lemma manual_move_blocked_on_ragged_grid :
  synced raggedCursor
  ∧ currentPos raggedCursor = Some (mkCell 1 1 Path)
  ∧ isAnimating raggedCursor = false
  ∧ key_direction (moveKeys raggedCursor) (toLowerCase "d") = Some Right
  ∧ in_grid (mazeGrid raggedCursor) (mkCell 2 1 Path)
  ∧ moved Right (mkCell 1 1 Path) (mkCell 2 1 Path)
  ∧ type (mkCell 2 1 Path) ≠ Wall
  ∧ handleKeyPress raggedCursor "d" = Val raggedCursor.
Proof. by repeat split. Qed.

(** C8 (amended): from a state left by the effect whose cursor, if set, is on
    a cell of the grid that is not a wall, the same holds after any sequence
    of key events, and the grid is untouched.  In the state so reached a key
    event never fails; it either changes nothing or moves the cursor to the
    neighbour in the mapped direction, which is a cell of the grid and not a
    wall.  On a rectangular text, while no replay is in progress, the
    converse holds: when the neighbour in the mapped direction is a cell of
    the grid and not a wall, it becomes the current position. *)
Theorem manual_move_stays_on_open_cells (sess : Session) (keys : list string) :
  synced (ui sess) → cursor_ok (ui sess) →
  ∃ st, st = ui (run sess (map KeyPress keys))
    ∧ mazeGrid st = mazeGrid (ui sess)
    ∧ cursor_ok st
    ∧ (∀ key,
         handleKeyPress st key = Val st
         ∨ ∃ cur d c,
             currentPos st = Some cur
             ∧ key_direction (moveKeys st) (toLowerCase key) = Some d
             ∧ moved d cur c ∧ in_grid (mazeGrid st) c ∧ type c ≠ Wall
             ∧ handleKeyPress st key = Val (setCurrentPos (Some c) st))
    ∧ (rectangular (maze st) → isAnimating st = false →
       ∀ key cur d c,
         currentPos st = Some cur →
         key_direction (moveKeys st) (toLowerCase key) = Some d →
         moved d cur c → in_grid (mazeGrid st) c → type c ≠ Wall →
         handleKeyPress st key = Val (setCurrentPos (Some c) st)).
Proof.
  intros Hsy Hok.
  destruct (key_presses_keep_cursor_ok keys sess Hsy Hok) as (Hsy' & Hok' & Hg).
  eexists. split; [reflexivity|].
  set (st := ui (run sess (map KeyPress keys))) in *.
  pose proof (synced_wf _ Hsy') as Hwf.
  split; [done|]. split; [done|]. split.
  - intros key.
    destruct (handleKeyPress_cases st key)
      as [?|(cur & d & c & _ & Hcur & Hd & Hnext & Hnw & Hres)]; [|by left|].
    { intros c Hc. by apply Hok'. }
    right. exists cur, d, c.
    destruct (getNextCell_Some _ _ _ _ Hwf Hnext) as [Hc Hm]. by repeat split.
  - intros Hrect Han key cur d c Hcur Hd Hm Hc Hnw.
    unfold handleKeyPress. rewrite Han, Hd, Hcur.
    assert (Hnext : getNextCell (mazeGrid st) cur d = Val (Some c)).
    { apply moved_getNextCell; try done; [by apply Hok'|].
      intros _. destruct Hsy' as (Hgrid & _). rewrite Hgrid in *.
      by apply rectangular_first_row. }
    rewrite Hnext. simpl. apply is_wall_false in Hnw. by rewrite Hnw.
Qed.

Lemma manual_move_stays_on_open_cells_witness :
  ∃ st, st = ui (run demoSolved (map KeyPress ["w"; "W"; "a"; "x"]))
    ∧ mazeGrid st = mazeGrid (ui demoSolved)
    ∧ cursor_ok st
    ∧ (∀ key,
         handleKeyPress st key = Val st
         ∨ ∃ cur d c,
             currentPos st = Some cur
             ∧ key_direction (moveKeys st) (toLowerCase key) = Some d
             ∧ moved d cur c ∧ in_grid (mazeGrid st) c ∧ type c ≠ Wall
             ∧ handleKeyPress st key = Val (setCurrentPos (Some c) st))
    ∧ (rectangular (maze st) → isAnimating st = false →
       ∀ key cur d c,
         currentPos st = Some cur →
         key_direction (moveKeys st) (toLowerCase key) = Some d →
         moved d cur c → in_grid (mazeGrid st) c → type c ≠ Wall →
         handleKeyPress st key = Val (setCurrentPos (Some c) st)).
Proof.
  apply (manual_move_stays_on_open_cells demoSolved ["w"; "W"; "a"; "x"]).
  - repeat split.
  - intros c Hc. injection Hc as <-. split; [reflexivity|discriminate].
Defined.

Example demo_manual_moves :
  currentPos (ui demoSolved) = Some (mkCell 2 2 End)
  ∧ currentPos (ui (run demoSolved (map KeyPress ["w"]))) = Some (mkCell 2 1 Path)
  ∧ currentPos (ui (run demoSolved (map KeyPress ["w"; "W"]))) = Some (mkCell 2 1 Path)
  ∧ currentPos (ui (run demoSolved (map KeyPress ["w"; "W"; "a"]))) = Some (mkCell 1 1 Start)
  ∧ currentPos (ui (run demoSolved (map KeyPress ["w"; "W"; "a"; "x"]))) = Some (mkCell 1 1 Start).
Proof. by repeat split. Qed.

(** ** Replay *)

Lemma session_eta s : {| ui := ui s; pending := pending s |} = s.
Proof. by destruct s. Qed.

Lemma timer_count_cons ev evs :
  timer_count (ev :: evs)
  = if decide (ev = TimerFires) then S (timer_count evs) else timer_count evs.
Proof.
  unfold timer_count. destruct (decide (ev = TimerFires)).
  - by rewrite filter_cons_True.
  - by rewrite filter_cons_False.
Qed.

Lemma run_snoc s evs ev : run s (evs ++ [ev]) = dispatch (run s evs) ev.
Proof. unfold run. by rewrite foldl_app. Qed.

(** While one replay is suspended with [rest] still to apply, and no solve is
    clicked, key events change nothing and the [k]-th timer applies the
    [k]-th cell of [rest]. *)
Lemma replay_progress evs :
  ∀ s rest,
    isAnimating (ui s) = true → pending s = [rest] →
    SolveClick ∉ evs → timer_count evs ≤ length rest →
    run s evs
    = {| ui := match timer_count evs with
               | 0 => ui s
               | S k => setCurrentPos (rest !! k) (ui s)
               end;
         pending := [drop (timer_count evs) rest] |}.
Proof.
  induction evs as [|ev evs IH]; intros s rest Han Hp Hns Hle.
  - change (timer_count []) with 0. change (run s []) with s.
    rewrite drop_0, <- Hp. by rewrite session_eta.
  - apply not_elem_of_cons in Hns as [Hev Hns].
    change (run s (ev :: evs)) with (run (dispatch s ev) evs).
    rewrite timer_count_cons in *. destruct ev as [key| |]; [|done|].
    + rewrite decide_False in * by done.
      simpl dispatch. rewrite (key_press_ignored_during_replay _ _ Han).
      rewrite session_eta. by apply IH.
    + rewrite decide_True in * by done.
      destruct rest as [|c rest]; [simpl in Hle; lia|].
      simpl dispatch. unfold timerFires. rewrite Hp. simpl.
      rewrite (IH _ rest); [|done|done|done|simpl in Hle; lia].
      simpl. by destruct (timer_count evs).
Qed.

(** A replay suspended with [rest] still to apply and the cursor on [c0]
    ends, after as many timers as [rest] has cells and one more, with the
    cursor on the last cell, the flag cleared and nothing pending. *)
Lemma replay_completes evs s c0 rest :
  isAnimating (ui s) = true → currentPos (ui s) = Some c0 → pending s = [rest] →
  SolveClick ∉ evs → timer_count evs = length rest →
  currentPos (ui (run s (evs ++ [TimerFires]))) = last (c0 :: rest)
  ∧ isAnimating (ui (run s (evs ++ [TimerFires]))) = false
  ∧ pending (run s (evs ++ [TimerFires])) = [].
Proof.
  intros Han Hc Hp Hns Htc.
  rewrite run_snoc, (replay_progress evs s rest) by (done || lia).
  rewrite Htc, drop_all. simpl. split; [|done].
  destruct rest as [|c rest]; simpl; [done|].
  by rewrite last_lookup.
Qed.

(** X20: a replay that runs alone, started while no other replay is
    suspended and with no click on the solve button before it ends, applies
    the cells of its path in path order, one per timer: whatever key events
    arrive in between, after [k] timers the current position is the [k]-th
    cell of the path, for every [k] below the path's length; the timer after
    the last cell ends the replay with the cursor on the last cell.  For the
    path of a successful solve that cell is the designated end. *)
Theorem replay_in_path_order (sess : Session) (p : list Cell) (evs : list Event) :
  pending sess = [] → SolveClick ∉ evs →
  (∀ c, p !! timer_count evs = Some c →
        currentPos (ui (run (animatePath p sess) evs)) = Some c
        ∧ isAnimating (ui (run (animatePath p sess) evs)) = true)
  ∧ (S (timer_count evs) = length p →
     currentPos (ui (run (animatePath p sess) (evs ++ [TimerFires]))) = last p
     ∧ isAnimating (ui (run (animatePath p sess) (evs ++ [TimerFires]))) = false
     ∧ pending (run (animatePath p sess) (evs ++ [TimerFires])) = [])
  ∧ (∀ s' m, synced (ui sess) → solveMaze sess = (s', Found p m) →
     S (timer_count evs) = length p →
     ∃ e, end_ (ui sess) = Some e
       ∧ currentPos (ui (run s' (evs ++ [TimerFires]))) = Some e
       ∧ isAnimating (ui (run s' (evs ++ [TimerFires]))) = false).
Proof.
  intros Hp Hns.
  destruct p as [|c0 rest].
  { split; [intros c; by rewrite lookup_nil|]. split; [done|]. intros; simpl in *; lia. }
  assert (Hstart : ∀ st, animatePath (c0 :: rest) {| ui := st; pending := [] |}
                         = {| ui := setCurrentPos (Some c0) (setIsAnimating true st);
                              pending := [rest] |}) by done.
  rewrite <- (session_eta sess), Hp, Hstart.
  split; [|split].
  - intros c Hc. pose proof (lookup_lt_Some _ _ _ Hc) as Hlt. simpl in Hlt.
    rewrite (replay_progress evs _ rest) by (done || simpl; lia).
    destruct (timer_count evs) as [|k]; simpl in *; [|done].
    by injection Hc as <-.
  - intros Htc. simpl in Htc. apply replay_completes; try done. lia.
  - intros s' m Hsy (Hf & Hui & Hpend)%solveMaze_Found Htc.
    destruct (search_Found_derived _ _ _ Hsy Hf) as (s & e & ds & _ & He & Hder).
    destruct (derived_facts _ _ _ _ _ Hder) as (_ & Hl & _). simpl in Hl.
    simpl in He. exists e. split; [done|].
    rewrite Hstart in Hui, Hpend.
    destruct (replay_completes evs s' c0 rest) as (Hcur & Han & _);
      try done; [by rewrite Hui|by rewrite Hui|simpl in Htc; lia|].
    rewrite Hcur, Han. by rewrite Hl.
Qed.

Lemma replay_in_path_order_witness :
  (∀ c, demoPath !! timer_count demoEvents = Some c →
        currentPos (ui (run (animatePath demoPath (mkSession demo [])) demoEvents))
        = Some c
        ∧ isAnimating (ui (run (animatePath demoPath (mkSession demo [])) demoEvents))
          = true)
  ∧ (S (timer_count demoEvents) = length demoPath →
     currentPos (ui (run (animatePath demoPath (mkSession demo []))
                         (demoEvents ++ [TimerFires])))
     = last demoPath
     ∧ isAnimating (ui (run (animatePath demoPath (mkSession demo []))
                            (demoEvents ++ [TimerFires])))
       = false
     ∧ pending (run (animatePath demoPath (mkSession demo []))
                    (demoEvents ++ [TimerFires])) = [])
  ∧ (∀ s' m, synced (ui (mkSession demo [])) →
     solveMaze (mkSession demo []) = (s', Found demoPath m) →
     S (timer_count demoEvents) = length demoPath →
     ∃ e, end_ (ui (mkSession demo [])) = Some e
       ∧ currentPos (ui (run s' (demoEvents ++ [TimerFires]))) = Some e
       ∧ isAnimating (ui (run s' (demoEvents ++ [TimerFires]))) = false).
Proof.
  apply (replay_in_path_order (mkSession demo []) demoPath demoEvents).
  - reflexivity.
  - intros H. repeat (apply elem_of_cons in H as [H|H]; [discriminate|]).
    by apply elem_of_nil in H.
Defined.

(** ** Where the code departs from the claims *)

(** C2 at the corridor: the start cell is put on the queue without being
    marked, so the second iteration, expanding its right neighbour, finds it
    unmarked and pushes it again; the third iteration then dequeues and
    expands the start cell a second time. *)
Theorem start_is_enqueued_twice :
  start corridor = Some (mkCell 0 0 Start)
  ∧ end_ corridor = Some (mkCell 2 0 End)
  ∧ visited_at (init_visited (maze corridor)) (mkCell 0 0 Start) = false
  ∧ ∃ v1 q1 v2 q2 v3 q3,
      loop_body (mazeGrid corridor) (moveKeys corridor) (mkCell 2 0 End)
        (init_visited (maze corridor))
        [ {| cell := mkCell 0 0 Start; path := [mkCell 0 0 Start]; moves := [] |} ]
      = Again v1 q1
      ∧ map cell q1 = [mkCell 1 0 Path]
      ∧ visited_at v1 (mkCell 0 0 Start) = false
      ∧ loop_body (mazeGrid corridor) (moveKeys corridor) (mkCell 2 0 End) v1 q1
        = Again v2 q2
      ∧ map cell q2 = [mkCell 0 0 Start; mkCell 2 0 End]
      ∧ loop_body (mazeGrid corridor) (moveKeys corridor) (mkCell 2 0 End) v2 q2
        = Again v3 q3
      ∧ map cell q3 = [mkCell 2 0 End].
Proof.
  split; [done|]. split; [done|]. split; [done|].
  eexists _, _, _, _, _, _.
  split; [vm_compute; reflexivity|]. split; [done|]. split; [done|].
  split; [vm_compute; reflexivity|]. split; [done|].
  split; [vm_compute; reflexivity|]. done.
Qed.

(** C9 at the maze of the specification: while the replay is in progress a
    key event is ignored, but a second click on the solve button is not: it
    runs the search again and starts a second replay next to the first. *)
Theorem solve_is_not_gated_by_replay :
  isAnimating (ui demoReplaying) = true
  ∧ pending demoReplaying = [[mkCell 1 2 Path; mkCell 2 2 End]]
  ∧ dispatch demoReplaying (KeyPress "s") = demoReplaying
  ∧ (solveMaze demoReplaying).2
    = Found [mkCell 1 1 Start; mkCell 1 2 Path; mkCell 2 2 End] ["s"; "d"]
  ∧ pending (dispatch demoReplaying SolveClick)
    = [[mkCell 1 2 Path; mkCell 2 2 End]; [mkCell 1 2 Path; mkCell 2 2 End]]
  ∧ dispatch demoReplaying SolveClick ≠ demoReplaying.
Proof.
  by repeat split.
Qed.

(** When the second click comes one step into the first replay, the first
    replay ends, and clears the flag, while the second one still has a cell
    to apply: a key event is then accepted in the middle of a replay. *)
Example second_replay_outlives_flag :
  isAnimating
    (ui (run demoReplaying [TimerFires; SolveClick; TimerFires; TimerFires; TimerFires]))
  = false
  ∧ pending
      (run demoReplaying [TimerFires; SolveClick; TimerFires; TimerFires; TimerFires])
    = [[mkCell 2 2 End]]
  ∧ currentPos
      (ui (run demoReplaying
               [TimerFires; SolveClick; TimerFires; TimerFires; TimerFires; KeyPress "w"]))
    = Some (mkCell 1 1 Start).
Proof. by repeat split. Qed.

(** C10 at two overlapping replays of the maze of the specification.  The
    second click on the solve button, one step into the first replay, is not
    refused (C9) and starts a second replay of the same path.  The cursor is
    then sent back to the start, on to the end by the first replay, back to
    the cell before the end by the second; the first replay ends and clears
    the flag while the second still waits on the end cell, so the key event
    is accepted and moves the cursor up; the second replay then ends with
    the cursor off the end cell. *)
Theorem overlapping_replays_leave_end :
  (solveMaze (mkSession demo [])).2 = Found demoPath ["s"; "d"]
  ∧ end_ demo = Some (mkCell 2 2 End)
  ∧ cursor_trace (mkSession demo []) overlapEvents
    = [Some (mkCell 1 1 Start); Some (mkCell 1 2 Path); Some (mkCell 1 1 Start);
       Some (mkCell 2 2 End); Some (mkCell 1 2 Path); Some (mkCell 1 2 Path);
       Some (mkCell 2 2 End); Some (mkCell 2 1 Path); Some (mkCell 2 1 Path)]
  ∧ pending (run (mkSession demo []) (take 8 overlapEvents)) = [[]]
  ∧ pending (run (mkSession demo []) overlapEvents) = []
  ∧ isAnimating (ui (run (mkSession demo []) overlapEvents)) = false
  ∧ currentPos (ui (run (mkSession demo []) overlapEvents)) ≠ end_ demo.
Proof.
  split; [reflexivity|]. split; [reflexivity|]. split; [vm_compute; reflexivity|].
  split; [reflexivity|]. split; [reflexivity|]. split; [reflexivity|].
  vm_compute. discriminate.
Qed.

(** * Further properties *)

(** ** The text input *)

Lemma split_lines_nonempty value : split_lines value ≠ [].
Proof.
  destruct value as [|ch rest]; simpl; [done|].
  destruct (Ascii.eqb ch newline); [done|]. by destruct (split_lines rest).
Qed.

Lemma join_lines_cons line lines :
  lines ≠ [] →
  join_lines (line :: lines)
  = String.append line (String newline (join_lines lines)).
Proof. unfold join_lines. simpl. by destruct lines. Qed.

Lemma join_split_lines value : join_lines (split_lines value) = value.
Proof.
  induction value as [|ch rest IH]; [done|]. simpl.
  destruct (Ascii.eqb_spec ch newline) as [->|Hne].
  - rewrite join_lines_cons by apply split_lines_nonempty. simpl. by rewrite IH.
  - pose proof (split_lines_nonempty rest) as Hn.
    destruct (split_lines rest) as [|line lines]; [done|].
    destruct lines as [|line' lines].
    + unfold join_lines in *. simpl in *. by rewrite IH.
    + rewrite join_lines_cons in IH by done.
      rewrite join_lines_cons by done. by rewrite <- IH.
Qed.

Lemma split_lines_no_newline value line :
  line ∈ split_lines value → newline ∉ split_chars line.
Proof.
  revert line. induction value as [|ch rest IH]; intros line; simpl.
  - intros ->%list_elem_of_singleton. simpl. apply not_elem_of_nil.
  - destruct (Ascii.eqb_spec ch newline) as [->|Hne].
    + intros [->|?]%elem_of_cons; [apply not_elem_of_nil|by apply IH].
    + pose proof (split_lines_nonempty rest) as Hn.
      destruct (split_lines rest) as [|l ls]; [done|].
      intros [->|Hin]%elem_of_cons.
      * simpl. intros [?|Hin]%elem_of_cons; [congruence|].
        revert Hin. apply IH. by left.
      * apply IH. by right.
Qed.

Lemma split_lines_single line :
  newline ∉ split_chars line → split_lines line = [line].
Proof.
  induction line as [|ch rest IH]; [done|]. simpl.
  intros Hn. apply not_elem_of_cons in Hn as [Hne Hn].
  destruct (Ascii.eqb_spec ch newline) as [->|_]; [done|].
  by rewrite IH.
Qed.

Lemma split_lines_append line rest :
  newline ∉ split_chars line →
  split_lines (String.append line (String newline rest)) = line :: split_lines rest.
Proof.
  induction line as [|ch line IH]; simpl.
  - intros _. reflexivity.
  - intros Hn. apply not_elem_of_cons in Hn as [Hne Hn].
    destruct (Ascii.eqb_spec ch newline) as [->|_]; [done|].
    by rewrite IH.
Qed.

Lemma split_join_lines lines :
  lines ≠ [] → (∀ line, line ∈ lines → newline ∉ split_chars line) →
  split_lines (join_lines lines) = lines.
Proof.
  induction lines as [|line lines IH]; [done|]. intros _ Hall.
  destruct lines as [|line' lines].
  - unfold join_lines. simpl. apply split_lines_single, Hall. by left.
  - rewrite join_lines_cons by done.
    rewrite split_lines_append by (apply Hall; by left).
    rewrite IH; [done|done|]. intros l Hl. apply Hall. by right.
Qed.

(** X1: splitting a text at its line feeds and joining the lines with line
    feeds are inverse to each other: the lines of a text joined give the text
    back, none of them holds a line feed and there is at least one; and a
    non-empty list of lines without line feeds is what its joined text
    splits into. *)
Theorem split_lines_round_trip (value : string) (lines : list string) :
  (join_lines (split_lines value) = value
   ∧ split_lines value ≠ []
   ∧ ∀ line, line ∈ split_lines value → newline ∉ split_chars line)
  ∧ (lines ≠ [] → (∀ line, line ∈ lines → newline ∉ split_chars line) →
     split_lines (join_lines lines) = lines).
Proof.
  split; [split; [|split]|].
  - apply join_split_lines.
  - apply split_lines_nonempty.
  - intros line. apply split_lines_no_newline.
  - apply split_join_lines.
Qed.

Lemma split_lines_round_trip_witness :
  (join_lines (split_lines "ab") = "ab"
   ∧ split_lines "ab" ≠ []
   ∧ ∀ line, line ∈ split_lines "ab" → newline ∉ split_chars line)
  ∧ split_lines (join_lines ["#P"; EmptyString; ".E"]) = ["#P"; EmptyString; ".E"].
Proof.
  destruct (split_lines_round_trip "ab" ["#P"; EmptyString; ".E"]) as [H1 H2].
  split; [exact H1|]. apply H2; [discriminate|].
  intros line Hline Hnl.
  repeat (apply elem_of_cons in Hline as [->|Hline];
          [vm_compute in Hnl;
           repeat (apply elem_of_cons in Hnl as [Hnl|Hnl]; [discriminate|]);
           by apply elem_of_nil in Hnl|]).
  by apply elem_of_nil in Hline.
Defined.

Lemma maze_nonempty_decide (m : list string) :
  m ≠ [] → ∃ H, decide (0 < length m) = left H.
Proof.
  intros Hm. destruct (decide (0 < length m)) as [H|H]; [by exists H|].
  destruct m; [done|]. simpl in H. lia.
Qed.

Lemma handleMazeInput_keeps value st :
  synced (handleMazeInput value st)
  ∧ currentPos (handleMazeInput value st) = currentPos st
  ∧ isAnimating (handleMazeInput value st) = isAnimating st
  ∧ maze (handleMazeInput value st) = split_lines value.
Proof.
  unfold handleMazeInput, setMaze, rebuild. simpl.
  destruct (maze_nonempty_decide (split_lines value) (split_lines_nonempty value))
    as [H ->].
  by repeat split.
Qed.

(** X2: whatever is typed into the text box, the empty text included, the
    new state holds the lines of the text, a grid built from them with the
    current symbols, and the flag that a maze is shown: the branch of the
    effect that clears the flag is never taken after an input.  The cursor,
    the solution string and the replay flag are carried over as they are. *)
Theorem text_input_always_builds (value : string) (st : State) :
  maze (handleMazeInput value st) = split_lines value
  ∧ synced (handleMazeInput value st)
  ∧ isMazeGenerated (handleMazeInput value st) = true
  ∧ length (mazeGrid (handleMazeInput value st)) = length (split_lines value)
  ∧ 0 < length (mazeGrid (handleMazeInput value st))
  ∧ currentPos (handleMazeInput value st) = currentPos st
  ∧ solutionMoves (handleMazeInput value st) = solutionMoves st
  ∧ isAnimating (handleMazeInput value st) = isAnimating st
  ∧ maze (handleMazeInput value st) = split_lines value.
Proof.
  unfold handleMazeInput, setMaze, rebuild. simpl.
  destruct (maze_nonempty_decide (split_lines value) (split_lines_nonempty value))
    as [H ->].
  simpl. rewrite buildGrid_length. by repeat split.
Qed.

(** X3: the grid is a function of the current text and symbols, not of the
    order of the edits: a later text replaces an earlier one, a later wall
    symbol an earlier one, and a text input and a symbol input give the same
    state in either order. *)
Theorem edits_leave_no_history (v1 v2 w1 w2 : string) (st : State) :
  handleMazeInput v2 (handleMazeInput v1 st) = handleMazeInput v2 st
  ∧ setWallSymbol w2 (setWallSymbol w1 st) = setWallSymbol w2 st
  ∧ handleMazeInput v1 (setWallSymbol w1 st) = setWallSymbol w1 (handleMazeInput v1 st)
  ∧ handleMazeInput v1 (setStartSymbol w1 st) = setStartSymbol w1 (handleMazeInput v1 st)
  ∧ handleMazeInput v1 (setEndSymbol w1 st) = setEndSymbol w1 (handleMazeInput v1 st).
Proof.
  destruct (maze_nonempty_decide (split_lines v1) (split_lines_nonempty v1)) as [H1 Hd1].
  destruct (maze_nonempty_decide (split_lines v2) (split_lines_nonempty v2)) as [H2 Hd2].
  unfold handleMazeInput, setMaze, setWallSymbol, setStartSymbol, setEndSymbol, rebuild.
  destruct (decide (0 < length (maze st))) eqn:Hd0;
    repeat (simpl; rewrite ?Hd0, ?Hd1, ?Hd2); by repeat split.
Qed.

(** ** Symbol inputs *)

Lemma getNextCell_no_throw_row g c d :
  is_Some (g !! y c) → ∃ r, getNextCell g c d = Val r.
Proof.
  intros [row Hrow].
  pose proof (lookup_lt_Some _ _ _ Hrow) as Hlen.
  unfold getNextCell, index2. destruct d.
  - destruct (0 <? y c) eqn:E; [|eauto]. apply Nat.ltb_lt in E.
    destruct (lookup_lt_is_Some_2 g (y c - 1)) as [r ->]; [lia|]. eauto.
  - destruct (y c <? length g - 1) eqn:E; [|eauto]. apply Nat.ltb_lt in E.
    destruct (lookup_lt_is_Some_2 g (y c + 1)) as [r ->]; [lia|]. eauto.
  - destruct (0 <? x c); [|eauto]. rewrite Hrow. eauto.
  - destruct (lookup_lt_is_Some_2 g 0) as [r ->]; [lia|].
    destruct (x c <? length r - 1); [|eauto]. rewrite Hrow. eauto.
Qed.

Lemma cell_at_row g i j : is_Some (cell_at g i j) → is_Some (g !! j).
Proof. unfold cell_at. destruct (g !! j); [eauto|]. by intros [? ?]. Qed.

(** A key event on a cursor whose position is in the grid never throws, and
    where it moves the cursor it moves it to an open cell. *)
Lemma handleKeyPress_in_range st key :
  wf_grid (mazeGrid st) → cursor_in_range st →
  handleKeyPress st key = Val st
  ∨ ∃ c, open_cell (mazeGrid st) c
         ∧ handleKeyPress st key = Val (setCurrentPos (Some c) st).
Proof.
  intros Hwf Hcur. unfold handleKeyPress.
  destruct (isAnimating st); [by left|].
  destruct (key_direction (moveKeys st) (toLowerCase key)) as [d|]; [|by left].
  destruct (currentPos st) as [cur|] eqn:Hc; [|by left].
  destruct (getNextCell_no_throw_row (mazeGrid st) cur d) as [r Hr].
  { eapply cell_at_row. by apply Hcur. }
  rewrite Hr. simpl. destruct r as [c|]; [|by left].
  destruct (is_wall (type c)) eqn:Hw; simpl; [by left|].
  right. exists c. split; [|done]. apply is_wall_false in Hw.
  by destruct (getNextCell_Some _ _ _ _ Hwf Hr).
Qed.

Lemma rebuild_cursor_in_range st st0 :
  synced st → cursor_in_range st →
  maze st0 = maze st → currentPos st0 = currentPos st →
  mazeGrid st0 = mazeGrid st → start st0 = start st → end_ st0 = end_ st →
  synced (rebuild st0) ∧ cursor_in_range (rebuild st0).
Proof.
  intros (Hg & Hs & He) Hcur Hm Hc Hg0 Hs0 He0. unfold rebuild.
  destruct (decide (0 < length (maze st0))) as [Hlen|Hlen].
  - split; [by repeat split|]. intros c. simpl. rewrite Hc. intros Hcc.
    specialize (Hcur c Hcc). rewrite Hg, cell_at_buildGrid in Hcur.
    rewrite Hm, cell_at_buildGrid.
    destruct (char_at (maze st) (x c) (y c)); [by eexists|by destruct Hcur].
  - assert (maze st = []) as Hnil.
    { rewrite <- Hm. destruct (maze st0); [done|simpl in Hlen; lia]. }
    rewrite Hnil in Hg. unfold buildGrid in Hg. simpl in Hg.
    split.
    + unfold synced. simpl. rewrite Hm, Hnil, Hg0, Hs0, He0, Hg.
      rewrite Hg in Hs, He. by repeat split.
    + intros c. simpl. rewrite Hc, Hg0. apply Hcur.
Qed.

(** X4: a change of the wall, start or end symbol leaves every position of
    the grid in place, so a cursor whose position was in the grid still is
    (though the cell under it may now be a wall), and manual moves keep
    working: a key event never throws, and where it moves the cursor it moves
    it to a cell of the new grid that is not a wall. *)
Theorem symbol_change_keeps_moves_safe (v : string) (st : State)
    (f : State → State) (key : string) :
  f ∈ [setWallSymbol v; setStartSymbol v; setEndSymbol v] →
  synced st → cursor_in_range st →
  synced (f st)
  ∧ cursor_in_range (f st)
  ∧ (∀ i j, is_Some (cell_at (mazeGrid (f st)) i j)
            ↔ is_Some (cell_at (mazeGrid st) i j))
  ∧ (handleKeyPress (f st) key = Val (f st)
     ∨ ∃ c, open_cell (mazeGrid (f st)) c
            ∧ handleKeyPress (f st) key = Val (setCurrentPos (Some c) (f st))).
Proof.
  intros Hf Hsy Hcur.
  assert (Hboth : synced (f st) ∧ cursor_in_range (f st)
                  ∧ ∃ w s e, mazeGrid (f st) = buildGrid w s e (maze st)).
  { assert (Hgrid : ∀ st0, maze st0 = maze st → mazeGrid st0 = mazeGrid st →
                      ∃ w s e, mazeGrid (rebuild st0) = buildGrid w s e (maze st)).
    { intros st0 Hm Hg. unfold rebuild. destruct (decide (0 < length (maze st0))).
      - simpl. rewrite Hm. eauto.
      - simpl. rewrite Hg. destruct Hsy as (-> & _). eauto. }
    repeat (apply elem_of_cons in Hf as [->|Hf]);
      [| | |by apply elem_of_nil in Hf];
      (split; [|split]; [eapply rebuild_cursor_in_range; done
                        |eapply rebuild_cursor_in_range; done
                        |by apply Hgrid]). }
  destruct Hboth as (Hsy' & Hcur' & w & s & e & Hg').
  split; [done|]. split; [done|]. split.
  - intros i j. rewrite Hg'. destruct Hsy as (-> & _).
    rewrite !cell_at_buildGrid. by destruct (char_at (maze st) i j).
  - apply handleKeyPress_in_range; [by apply synced_wf|done].
Qed.

(** The maze of the specification, solved and replayed, after which the wall
    symbol is changed to the letter of the end cell. *)
Lemma symbol_change_keeps_moves_safe_witness :
  synced (setWallSymbol "E" (ui demoSolved))
  ∧ cursor_in_range (setWallSymbol "E" (ui demoSolved))
  ∧ (∀ i j, is_Some (cell_at (mazeGrid (setWallSymbol "E" (ui demoSolved))) i j)
            ↔ is_Some (cell_at (mazeGrid (ui demoSolved)) i j))
  ∧ (handleKeyPress (setWallSymbol "E" (ui demoSolved)) "w"
     = Val (setWallSymbol "E" (ui demoSolved))
     ∨ ∃ c, open_cell (mazeGrid (setWallSymbol "E" (ui demoSolved))) c
            ∧ handleKeyPress (setWallSymbol "E" (ui demoSolved)) "w"
              = Val (setCurrentPos (Some c) (setWallSymbol "E" (ui demoSolved)))).
Proof.
  apply (symbol_change_keeps_moves_safe "E" (ui demoSolved) (setWallSymbol "E") "w").
  - by left.
  - repeat split.
  - intros c Hc. injection Hc as <-. by eexists.
Defined.

Example cursor_on_new_wall :
  currentPos (setWallSymbol "E" (ui demoSolved)) = Some (mkCell 2 2 End)
  ∧ cell_at (mazeGrid (setWallSymbol "E" (ui demoSolved))) 2 2 = Some (mkCell 2 2 Wall).
Proof. by split. Qed.

Lemma find_type_absent t g :
  (∀ i j c, cell_at g i j = Some c → type c ≠ t) → find_type t g = None.
Proof.
  intros Hno. destruct (find_type t g) as [c|] eqn:Hf; [|done].
  destruct (find_type_first _ _ _ Hf) as (i & j & Hc & Ht & _).
  by destruct (Hno i j c Hc).
Qed.

Lemma classify_never_start w s e ch :
  s = w ∨ String.length s ≠ 1 → classify w s e ch ≠ Start.
Proof.
  unfold classify. intros Hs.
  destruct (String.eqb_spec (char_string ch) w) as [Hw|Hw]; [done|].
  destruct (String.eqb_spec (char_string ch) s) as [He|He].
  - destruct Hs as [->|Hlen]; [done|]. by rewrite <- He in Hlen.
  - by destruct (String.eqb (char_string ch) e).
Qed.

Lemma classify_never_end w s e ch :
  e = w ∨ e = s ∨ String.length e ≠ 1 → classify w s e ch ≠ End.
Proof.
  unfold classify. intros Hs.
  destruct (String.eqb_spec (char_string ch) w) as [Hw|Hw]; [done|].
  destruct (String.eqb_spec (char_string ch) s) as [Hst|Hst]; [done|].
  destruct (String.eqb_spec (char_string ch) e) as [He|He]; [|done].
  destruct Hs as [->|[->|Hlen]]; [done|done|]. by rewrite <- He in Hlen.
Qed.

Lemma classify_never_wall w s e ch :
  String.length w ≠ 1 → classify w s e ch ≠ Wall.
Proof.
  unfold classify. intros Hlen.
  destruct (String.eqb_spec (char_string ch) w) as [Hw|Hw].
  - by rewrite <- Hw in Hlen.
  - destruct (String.eqb (char_string ch) s); [done|].
    by destruct (String.eqb (char_string ch) e).
Qed.

(** X5: symbols that collide or are not one character long switch kinds off.
    When the start symbol equals the wall symbol, or is empty or longer than
    one character, the built grid has no start; when the end symbol equals
    the wall or the start symbol, or is not one character, it has no end; in
    both cases a click on solve returns at its guard.  When the wall symbol
    is not one character the grid has no wall at all. *)
Theorem symbol_collision_disables_solving (st : State) (pend : list (list Cell)) :
  maze st ≠ [] →
  (startSymbol st = wallSymbol st ∨ String.length (startSymbol st) ≠ 1 →
   start (rebuild st) = None
   ∧ solveMaze (mkSession (rebuild st) pend)
     = (mkSession (rebuild st) pend, MissingEndpoint))
  ∧ (endSymbol st = wallSymbol st ∨ endSymbol st = startSymbol st
     ∨ String.length (endSymbol st) ≠ 1 →
     end_ (rebuild st) = None
     ∧ solveMaze (mkSession (rebuild st) pend)
       = (mkSession (rebuild st) pend, MissingEndpoint))
  ∧ (String.length (wallSymbol st) ≠ 1 →
     ∀ i j c, cell_at (mazeGrid (rebuild st)) i j = Some c → type c ≠ Wall).
Proof.
  intros Hm. unfold rebuild.
  destruct (maze_nonempty_decide (maze st) Hm) as [H ->].
  assert (Hkind : ∀ t,
    (∀ ch, classify (wallSymbol st) (startSymbol st) (endSymbol st) ch ≠ t) →
    ∀ i j c, cell_at (buildGrid (wallSymbol st) (startSymbol st) (endSymbol st)
                        (maze st)) i j = Some c → type c ≠ t).
  { intros t Hcl i j c. rewrite cell_at_buildGrid.
    destruct (char_at (maze st) i j) as [ch|]; simpl; [|done].
    intros [= <-]. apply Hcl. }
  split; [|split].
  - intros Hs.
    assert (Hnone : find_type Start (buildGrid (wallSymbol st) (startSymbol st)
                                       (endSymbol st) (maze st)) = None).
    { apply find_type_absent, Hkind. intros ch. by apply classify_never_start. }
    split; [done|]. unfold solveMaze, search. simpl. by rewrite Hnone.
  - intros He.
    assert (Hnone : find_type End (buildGrid (wallSymbol st) (startSymbol st)
                                     (endSymbol st) (maze st)) = None).
    { apply find_type_absent, Hkind. intros ch. by apply classify_never_end. }
    split; [done|]. unfold solveMaze, search. simpl. rewrite Hnone.
    by destruct (find_type Start _).
  - intros Hw. simpl. apply Hkind. intros ch. by apply classify_never_wall.
Qed.

Lemma symbol_collision_disables_solving_witness :
  start (rebuild clashMaze) = None
  ∧ solveMaze (mkSession (rebuild clashMaze) [])
    = (mkSession (rebuild clashMaze) [], MissingEndpoint).
Proof.
  destruct (symbol_collision_disables_solving clashMaze []) as (Hstart & _ & _).
  - discriminate.
  - apply Hstart. by left.
Defined.

(** ** Key bindings *)



(** The accented capital E (U+00C9) is lowered to U+00E9 like Q to q; the
    multiplication sign (U+00D7) and the sharp s (U+00DF) are left alone. *)
Example toLowerCase_accented :
  toLowerCase (String (ascii_of_nat 201)
                 (String (ascii_of_nat 215) (String (ascii_of_nat 223) "Q")))
  = String (ascii_of_nat 233)
      (String (ascii_of_nat 215) (String (ascii_of_nat 223) "q")).
Proof. reflexivity. Qed.

(** A key event with the accented capital resolves to the direction bound
    to the accented small letter. *)
Example accented_key_resolves :
  key_direction
    (moveKeys (handleMoveKeyInput Up (String (ascii_of_nat 201) EmptyString)
                 initialState))
    (toLowerCase (String (ascii_of_nat 201) EmptyString))
  = Some Up
  ∧ key_direction
      (moveKeys (handleMoveKeyInput Up (String (ascii_of_nat 233) EmptyString)
                   initialState))
      (toLowerCase (String (ascii_of_nat 201) EmptyString))
    = Some Up.
Proof. by split. Qed.

Lemma dir_index_inj d d' : dir_index d = dir_index d' → d = d'.
Proof. by destruct d, d'. Qed.

Lemma key_direction_spec mk k :
  match key_direction mk k with
  | Some d =>
      getKeyForDirection mk d = k
      ∧ ∀ d', dir_index d' < dir_index d → getKeyForDirection mk d' ≠ k
  | None => ∀ d', getKeyForDirection mk d' ≠ k
  end.
Proof.
  unfold key_direction.
  destruct (String.eqb_spec k (moveKeys.up mk)) as [Hu|Hu].
  { split; [done|]. intros [] ?; simpl in *; lia. }
  destruct (String.eqb_spec k (moveKeys.down mk)) as [Hd|Hd].
  { split; [done|]. intros [] ?; simpl in *; try lia; congruence. }
  destruct (String.eqb_spec k (moveKeys.left mk)) as [Hl|Hl].
  { split; [done|]. intros [] ?; simpl in *; try lia; congruence. }
  destruct (String.eqb_spec k (moveKeys.right mk)) as [Hr|Hr].
  { split; [done|]. intros [] ?; simpl in *; try lia; congruence. }
  intros []; simpl; congruence.
Qed.

(** X6: the chain of tests in [handleKeyPress] resolves a key to the first of
    up, down, left, right that is bound to it, and to nothing when no
    direction is bound to it; so of two directions bound to the same key the
    later one can never be triggered. *)
Theorem key_resolves_to_first_binding (mk : moveKeys.t) (k : string) (d : Direction) :
  (key_direction mk k = Some d ↔
   getKeyForDirection mk d = k
   ∧ ∀ d', dir_index d' < dir_index d → getKeyForDirection mk d' ≠ k)
  ∧ (key_direction mk k = None ↔ ∀ d', getKeyForDirection mk d' ≠ k)
  ∧ (∀ d', dir_index d' < dir_index d →
           getKeyForDirection mk d' = getKeyForDirection mk d →
           key_direction mk k ≠ Some d).
Proof.
  pose proof (key_direction_spec mk k) as Hspec.
  assert (Hfirst : key_direction mk k = Some d ↔
    getKeyForDirection mk d = k
    ∧ ∀ d', dir_index d' < dir_index d → getKeyForDirection mk d' ≠ k).
  { split.
    - intros Hk. by rewrite Hk in Hspec.
    - intros [Hk Hmin]. destruct (key_direction mk k) as [d0|].
      + destruct Hspec as [Hk0 Hmin0]. f_equal. apply dir_index_inj.
        destruct (Nat.lt_trichotomy (dir_index d0) (dir_index d)) as [Hlt|[?|Hlt]];
          [by destruct (Hmin d0 Hlt)|done|by destruct (Hmin0 d Hlt)].
      + by destruct (Hspec d). }
  split; [exact Hfirst|]. split.
  - split.
    + intros Hk. by rewrite Hk in Hspec.
    + intros Hno. destruct (key_direction mk k) as [d0|]; [|done].
      destruct Hspec as [Hk0 _]. by destruct (Hno d0).
  - intros d' Hlt Heq [Hk Hmin]%Hfirst. apply (Hmin d' Hlt). congruence.
Qed.

Lemma key_direction_binding mk d :
  keys_distinct mk → key_direction mk (getKeyForDirection mk d) = Some d.
Proof.
  intros Hdis.
  pose proof (key_direction_spec mk (getKeyForDirection mk d)) as Hspec.
  destruct (key_direction mk (getKeyForDirection mk d)) as [d0|].
  - destruct Hspec as [Heq _]. f_equal. by apply Hdis.
  - by destruct (Hspec d).
Qed.

Lemma keys_lower_initial : keys_lower (moveKeys initialState).
Proof. intros []; reflexivity. Qed.




(** ** More on manual moves *)


Lemma setCurrentPos_same st c : currentPos st = c → setCurrentPos c st = st.
Proof. destruct st. simpl. by intros ->. Qed.



(** X9: a cursor left below the grid, as a shorter text leaves it (the effect
    does not reset the cursor), makes key events throw: the up key when the
    cursor is more than one row below the last row, the left key when it is
    not in column 0, because the row they index does not exist.  The down
    key does nothing there. *)
Theorem stale_cursor_throws (st : State) (key : string) (cur : Cell) :
  isAnimating st = false → currentPos st = Some cur →
  length (mazeGrid st) ≤ y cur →
  (key_direction (moveKeys st) (toLowerCase key) = Some Up →
   length (mazeGrid st) < y cur → handleKeyPress st key = TypeError)
  ∧ (key_direction (moveKeys st) (toLowerCase key) = Some Left →
     0 < x cur → handleKeyPress st key = TypeError)
  ∧ (key_direction (moveKeys st) (toLowerCase key) = Some Down →
     handleKeyPress st key = Val st).
Proof.
  intros Han Hcur Hlen. unfold handleKeyPress. rewrite Han, Hcur.
  split; [|split]; intros ->; simpl; unfold index2.
  - intros Hlt. destruct (0 <? y cur) eqn:E; [|apply Nat.ltb_ge in E; lia].
    rewrite (lookup_ge_None_2 (mazeGrid st) (y cur - 1)) by lia. done.
  - intros Hx. destruct (0 <? x cur) eqn:E; [|apply Nat.ltb_ge in E; lia].
    rewrite (lookup_ge_None_2 (mazeGrid st) (y cur)) by lia. done.
  - destruct (y cur <? length (mazeGrid st) - 1) eqn:E; [|done].
    apply Nat.ltb_lt in E. lia.
Qed.

(** The maze of the specification, solved and replayed, after which the text
    is replaced by the single line [P.E]. *)
Lemma stale_cursor_throws_witness :
  handleKeyPress (handleMazeInput "P.E" (ui demoSolved)) "w" = TypeError.
Proof.
  destruct (stale_cursor_throws (handleMazeInput "P.E" (ui demoSolved)) "w"
              (mkCell 2 2 End)) as (Hup & _ & _).
  - reflexivity.
  - reflexivity.
  - simpl. lia.
  - apply Hup; [reflexivity|simpl; lia].
Defined.

(** ** Safety of whole sessions *)

Lemma is_walk_open g p c : is_walk g p → c ∈ p → open_cell g c.
Proof.
  induction p as [|a p IH]; intros Hw Hc; [by apply elem_of_nil in Hc|].
  destruct Hw as (Ha & Hna & _ & Hw).
  apply elem_of_cons in Hc as [->|Hc]; [by split|by apply IH].
Qed.

(** The search never throws and never reaches its loop bound in a state left
    by the effect. *)
Lemma search_never_crashes st :
  synced st → search st ≠ Crashed ∧ search st ≠ OutOfFuel.
Proof.
  intros Hsy. destruct (start st) as [s|] eqn:Hs; [|unfold search; by rewrite Hs].
  destruct (end_ st) as [e|] eqn:He; [|unfold search; by rewrite Hs, He].
  destruct (search_correct _ _ _ Hsy Hs He) as [[-> _]|(ds & p & m & -> & _)]; done.
Qed.

Lemma session_safe_dispatch s ev : session_safe s → session_safe (dispatch s ev).
Proof.
  intros Hs. pose proof Hs as (Hsy & Hok & Hpend). destruct ev as [key| |].
  - destruct (key_press_keeps_cursor_ok s key Hsy Hok) as (Hsy' & Hok' & Hg).
    split; [done|]. split; [done|]. rewrite Hg.
    simpl. destruct (handleKeyPress (ui s) key); apply Hpend.
  - simpl. unfold solveMaze.
    destruct (search (ui s)) as [|p m| | |] eqn:Hsearch; try done.
    destruct (search_Found_derived _ _ _ Hsy Hsearch) as (st & e & ds & Hst & _ & Hder).
    destruct (derived_connects _ _ _ _ _ _ Hsy Hst Hder) as [(Hw & Hh & _) _].
    destruct p as [|c0 rest]; [done|]. simpl.
    split; [done|]. split.
    + intros c [= <-]. apply (is_walk_open _ _ _ Hw). by left.
    + intros r c [Hr| ->%list_elem_of_singleton]%elem_of_app Hc.
      * by eapply Hpend.
      * apply (is_walk_open _ _ _ Hw). by right.
  - simpl. unfold timerFires.
    destruct (pending s) as [|rest others] eqn:Hp; [exact Hs|].
    assert (Hothers : ∀ r c, r ∈ others → c ∈ r → open_cell (mazeGrid (ui s)) c).
    { intros r c Hr. apply Hpend. by right. }
    destruct rest as [|c rest]; simpl.
    + split; [exact Hsy|]. split; [exact Hok|exact Hothers].
    + split; [exact Hsy|]. split.
      * intros c' [= <-]. apply (Hpend (c :: rest)); by left.
      * intros r c' [Hr| ->%list_elem_of_singleton]%elem_of_app Hc.
        -- by eapply Hothers.
        -- apply (Hpend (c :: rest)); [by left|by right].
Qed.

Lemma session_safe_run evs : ∀ s, session_safe s → session_safe (run s evs).
Proof.
  induction evs as [|ev evs IH]; intros s Hs; [done|].
  change (run s (ev :: evs)) with (run (dispatch s ev) evs).
  by apply IH, session_safe_dispatch.
Qed.

(** No event writes the grid. *)
Lemma run_keeps_grid evs : ∀ s, mazeGrid (ui (run s evs)) = mazeGrid (ui s).
Proof.
  induction evs as [|ev evs IH]; intros s; [done|].
  change (run s (ev :: evs)) with (run (dispatch s ev) evs). rewrite IH.
  destruct ev as [k| |]; simpl.
  - unfold handleKeyPress. destruct (isAnimating (ui s)); [done|].
    destruct (key_direction _ _); [|done]. destruct (currentPos (ui s)); [|done].
    destruct (getNextCell _ _ _) as [[n|]|]; simpl; try done.
    by destruct (is_wall (type n)).
  - unfold solveMaze. destruct (search (ui s)) as [|[|c p] m| | |]; done.
  - unfold timerFires. destruct (pending s) as [|[|c r] o]; done.
Qed.

(** X10: as long as text and symbols are left alone, no sequence of key
    events, clicks on solve and timers, overlapping replays included, ever
    puts the cursor on a wall or outside the grid, and none of them makes a
    handler throw: in every session so reached a key event returns a state
    and the search ends without a [TypeError], within its loop bound. *)
Theorem session_stays_safe (s : Session) (evs : list Event) (key : string) :
  session_safe s →
  session_safe (run s evs)
  ∧ cursor_ok (ui (run s evs))
  ∧ mazeGrid (ui (run s evs)) = mazeGrid (ui s)
  ∧ handleKeyPress (ui (run s evs)) key ≠ TypeError
  ∧ search (ui (run s evs)) ≠ Crashed
  ∧ search (ui (run s evs)) ≠ OutOfFuel.
Proof.
  intros Hs. pose proof (session_safe_run evs s Hs) as Hs'.
  split; [done|]. pose proof Hs' as (Hsy & Hok & _).
  split; [done|]. split.
  - apply run_keeps_grid.
  - split; [|by apply search_never_crashes].
    destruct (handleKeyPress_cases (ui (run s evs)) key) as [->|(? & ? & ? & H)];
      [intros c Hc; by apply Hok|done|].
    destruct H as (_ & _ & _ & _ & _ & ->). done.
Qed.

Lemma fresh_session_safe value st :
  currentPos st = None → session_safe (mkSession (handleMazeInput value st) []).
Proof.
  intros Hc. destruct (handleMazeInput_keeps value st) as (Hsy & Hcur & _ & _).
  split; [done|]. split.
  - intros c. simpl. rewrite Hcur, Hc. done.
  - intros rest c Hr. by apply elem_of_nil in Hr.
Qed.

Lemma session_stays_safe_witness :
  session_safe (run (mkSession demo [])
                    [SolveClick; TimerFires; SolveClick; KeyPress "w"; TimerFires])
  ∧ cursor_ok (ui (run (mkSession demo [])
                    [SolveClick; TimerFires; SolveClick; KeyPress "w"; TimerFires]))
  ∧ mazeGrid (ui (run (mkSession demo [])
                    [SolveClick; TimerFires; SolveClick; KeyPress "w"; TimerFires]))
    = mazeGrid demo
  ∧ handleKeyPress (ui (run (mkSession demo [])
                    [SolveClick; TimerFires; SolveClick; KeyPress "w"; TimerFires])) "a"
    ≠ TypeError
  ∧ search (ui (run (mkSession demo [])
                    [SolveClick; TimerFires; SolveClick; KeyPress "w"; TimerFires]))
    ≠ Crashed
  ∧ search (ui (run (mkSession demo [])
                    [SolveClick; TimerFires; SolveClick; KeyPress "w"; TimerFires]))
    ≠ OutOfFuel.
Proof.
  apply (session_stays_safe (mkSession demo [])
           [SolveClick; TimerFires; SolveClick; KeyPress "w"; TimerFires] "a").
  split; [by repeat split|]. split.
  - intros c Hc. discriminate Hc.
  - intros rest c Hr. by apply elem_of_nil in Hr.
Defined.

(** X11: the cursor is created by a solve only.  In a session without a
    cursor and without a pending replay, key events and timers change
    nothing at all. *)
Theorem no_cursor_without_solve (s : Session) (evs : list Event) :
  currentPos (ui s) = None → pending s = [] → SolveClick ∉ evs →
  run s evs = s.
Proof.
  intros Hc Hp. induction evs as [|ev evs IH]; intros Hns; [done|].
  apply not_elem_of_cons in Hns as [Hev Hns].
  change (run s (ev :: evs)) with (run (dispatch s ev) evs).
  assert (dispatch s ev = s) as ->; [|by apply IH].
  destruct ev as [k| |]; [|done|].
  - simpl. unfold handleKeyPress. rewrite Hc.
    destruct (isAnimating (ui s)); [by rewrite session_eta|].
    destruct (key_direction _ _); by rewrite session_eta.
  - simpl. unfold timerFires. by rewrite Hp.
Qed.

Lemma no_cursor_without_solve_witness :
  run (mkSession demo []) [KeyPress "w"; TimerFires; KeyPress "d"] = mkSession demo [].
Proof.
  apply (no_cursor_without_solve (mkSession demo []) [KeyPress "w"; TimerFires; KeyPress "d"]).
  - reflexivity.
  - reflexivity.
  - intros H. repeat (apply elem_of_cons in H as [H|H]; [discriminate|]).
    by apply elem_of_nil in H.
Defined.

(** ** More on the path found *)

(** Every prefix of an entry's path is a chain of edges from the start. *)
Lemma derived_prefix_reach g mk s ds n :
  derived g mk s ds n → ∀ i c, path n !! i = Some c → reach g s i c.
Proof.
  induction 1 as [|ds d n m Hn IH (Hnext & Hnw & Hp & _)]; intros i c.
  - simpl. intros [-> ->]%list_lookup_singleton_Some. constructor.
  - destruct (derived_facts _ _ _ _ _ Hn) as (_ & Hl & Hlen & _).
    rewrite Hp. intros [Hi|[Hge Hi]]%lookup_app_Some; [by apply IH|].
    apply list_lookup_singleton_Some in Hi as [Hi <-].
    assert (i = S (length ds)) as -> by lia.
    econstructor; [|by exists d].
    apply IH. rewrite last_lookup, Hlen in Hl. exact Hl.
Qed.

(** From any cell of an entry's path the rest of the path leads to the
    entry's cell. *)
Lemma derived_suffix_reach g mk s ds n :
  derived g mk s ds n →
  ∀ j c k, path n !! j = Some c → reach g s k c →
    reach g s (k + (length (path n) - 1 - j)) (cell n).
Proof.
  induction 1 as [|ds d n m Hn IH (Hnext & Hnw & Hp & _)]; intros j c k.
  - simpl. intros [-> ->]%list_lookup_singleton_Some Hr. by rewrite Nat.add_0_r.
  - rewrite Hp, length_app. simpl.
    intros [Hj|[Hge Hj]]%lookup_app_Some Hr.
    + pose proof (lookup_lt_Some _ _ _ Hj) as Hlt.
      replace (k + (length (path n) + 1 - 1 - j))
        with (S (k + (length (path n) - 1 - j))) by lia.
      econstructor; [by eapply IH|by exists d].
    + apply list_lookup_singleton_Some in Hj as [Hj <-].
      replace (k + (length (path n) + 1 - 1 - j)) with k by lia. done.
Qed.

(** X12: on every built grid, ragged ones included, the path of a successful
    solve is a walk from the designated start to the designated end that
    visits no cell twice and has at least two cells; so the replay never
    returns to a cell, and with one-character bindings the solution string is
    not empty. *)
Theorem found_path_is_simple (sess s' : Session) (p : list Cell) (m : list string) :
  synced (ui sess) → solveMaze sess = (s', Found p m) →
  NoDup p
  ∧ 2 ≤ length p
  ∧ is_walk (mazeGrid (ui sess)) p
  ∧ head p = start (ui sess)
  ∧ last p = end_ (ui sess)
  ∧ (single_char_keys (moveKeys (ui sess)) → solutionMoves (ui s') ≠ EmptyString).
Proof.
  intros Hsy (Hf & Hui & _)%solveMaze_Found.
  destruct (search_Found_endpoints _ _ _ Hf) as (s & e & Hs & He).
  destruct (search_correct _ _ _ Hsy Hs He)
    as [[Hn _]|(ds & p' & m' & Hf' & Hder & Hmin)]; [congruence|].
  rewrite Hf in Hf'. injection Hf' as <- <-.
  destruct (derived_connects _ _ _ _ _ _ Hsy Hs Hder) as [(Hw & Hh & Hl) Hlen].
  destruct (derived_facts _ _ _ _ _ Hder) as (_ & _ & _ & Hm). simpl in Hm.
  assert (Hds : 1 ≤ length ds).
  { destruct ds as [|d ds]; [|simpl; lia].
    destruct p as [|c [|c' p]]; simpl in Hlen; try lia.
    simpl in Hh, Hl. assert (s = e) as -> by congruence.
    destruct (synced_start _ _ Hsy Hs) as [_ Ht].
    destruct (synced_end _ _ Hsy He) as [_ Ht']. congruence. }
  split; [|split; [lia|split; [done|split; [congruence|split; [congruence|]]]]].
  - apply NoDup_alt. intros i j c Hi Hj.
    assert (Hle : ∀ i j, p !! i = Some c → p !! j = Some c → j ≤ i).
    { clear i j Hi Hj. intros i j Hi Hj.
      pose proof (derived_prefix_reach _ _ _ _ _ Hder i c Hi) as Hr.
      pose proof (derived_suffix_reach _ _ _ _ _ Hder j c i Hj Hr) as Hr'.
      simpl in Hr'. specialize (Hmin _ Hr').
      apply lookup_lt_Some in Hj. lia. }
    pose proof (Hle i j Hi Hj). pose proof (Hle j i Hj Hi). lia.
  - intros Hkeys. rewrite Hui. simpl.
    destruct (join_single_chars m) as [Hjlen _].
    { intros k Hk. rewrite Hm in Hk. apply list_elem_of_fmap in Hk as (d & -> & _).
      apply Hkeys. }
    intros Hempty. rewrite Hempty in Hjlen. simpl in Hjlen.
    rewrite Hm, length_map in Hjlen. lia.
Qed.

Lemma found_path_is_simple_witness :
  NoDup demoPath
  ∧ 2 ≤ length demoPath
  ∧ is_walk (mazeGrid demo) demoPath
  ∧ head demoPath = start demo
  ∧ last demoPath = end_ demo
  ∧ (single_char_keys (moveKeys demo) →
     solutionMoves (ui (solveMaze (mkSession demo [])).1) ≠ EmptyString).
Proof.
  apply (found_path_is_simple (mkSession demo []) (solveMaze (mkSession demo [])).1
           demoPath ["s"; "d"]).
  - repeat split.
  - reflexivity.
Defined.

(** ** The route and the key bindings *)

Lemma try_direction_same_route g mk mk' e e' d v q q' :
  same_route e e' → Forall2 same_route q q' →
  match try_direction g mk e d (v, q), try_direction g mk' e' d (v, q') with
  | Val r, Val r' => r.1 = r'.1 ∧ Forall2 same_route r.2 r'.2
  | TypeError, TypeError => True
  | _, _ => False
  end.
Proof.
  intros (Hc & Hp & Hm) Hq. unfold try_direction. rewrite <- Hc.
  destruct (getNextCell g (cell e) d) as [[n|]|]; simpl; [|done|done].
  destruct (read_visited v n) as [seen|]; simpl; [|done].
  destruct (negb seen && negb (is_wall (type n))); simpl; [|done].
  destruct (mark_visited v n) as [v'|]; simpl; [|done].
  split; [done|]. apply Forall2_app; [done|].
  constructor; [|constructor]. split; [done|]. simpl. split; [by rewrite Hp|].
  rewrite !length_app. simpl. lia.
Qed.

Lemma for_of_same_route g mk mk' e e' ds :
  same_route e e' →
  ∀ v q q', Forall2 same_route q q' →
  match for_of (try_direction g mk e) ds (v, q),
        for_of (try_direction g mk' e') ds (v, q') with
  | Val r, Val r' => r.1 = r'.1 ∧ Forall2 same_route r.2 r'.2
  | TypeError, TypeError => True
  | _, _ => False
  end.
Proof.
  intros He. induction ds as [|d ds IH]; intros v q q' Hq; [done|]. simpl.
  pose proof (try_direction_same_route g mk mk' e e' d v q q' He Hq) as Hstep.
  destruct (try_direction g mk e d (v, q)) as [[v1 q1]|],
           (try_direction g mk' e' d (v, q')) as [[v1' q1']|]; simpl in *; try done.
  destruct Hstep as [<- Hq1]. by apply IH.
Qed.

Lemma loop_body_same_route g mk mk' e v q q' :
  Forall2 same_route q q' →
  match loop_body g mk e v q, loop_body g mk' e v q' with
  | Leave o, Leave o' => same_outcome_route o o'
  | Again v1 q1, Again v1' q1' => v1 = v1' ∧ Forall2 same_route q1 q1'
  | _, _ => False
  end.
Proof.
  intros Hq. destruct Hq as [|n n' q q' Hn Hq]; [done|].
  unfold loop_body. pose proof Hn as (Hc & Hp & Hm). rewrite <- Hc.
  destruct (same_pos (cell n) e); [done|].
  pose proof (for_of_same_route g mk mk' n n' directions Hn v q q' Hq) as Hfor.
  destruct (for_of (try_direction g mk n) directions (v, q)) as [[v1 q1]|],
           (for_of (try_direction g mk' n') directions (v, q')) as [[v1' q1']|];
    done.
Qed.

Lemma bfs_loop_same_route g mk mk' e fuel :
  ∀ v q q', Forall2 same_route q q' →
  same_outcome_route (bfs_loop fuel g mk e v q) (bfs_loop fuel g mk' e v q').
Proof.
  induction fuel as [|fuel IH]; intros v q q' Hq; [done|]. cbn [bfs_loop].
  pose proof (loop_body_same_route g mk mk' e v q q' Hq) as Hbody.
  destruct (loop_body g mk e v q) as [o|v1 q1],
           (loop_body g mk' e v q') as [o'|v1' q1']; try done.
  destruct Hbody as [<- Hq1]. by apply IH.
Qed.

(** X13: the key bindings label the solution, they do not steer the search:
    after a move-key input the solve ends in the same way as before, and when
    it finds a path it finds the same path, with as many moves. *)
Theorem route_ignores_bindings (d : Direction) (v : string) (st : State) :
  same_outcome_route (search (handleMoveKeyInput d v st)) (search st).
Proof.
  unfold search. simpl.
  destruct (start st) as [s|]; [|done]. destruct (end_ st) as [e|]; [|done].
  apply bfs_loop_same_route. constructor; [|constructor]. by repeat split.
Qed.

(** ** Cell sizing *)

Lemma floor_div_pos a b : 0 < b → floor_div a b = Num (a / b).
Proof. intros Hb. unfold floor_div. destruct (b =? 0) eqn:E; [|done]. apply Nat.eqb_eq in E. lia. Qed.

Lemma div_fits a b n : 0 < b → n ≤ a / b → n * b ≤ a.
Proof.
  intros Hb Hn. pose proof (Nat.Div0.mul_div_le a b). nia.
Qed.

Lemma div_maximal a b : 0 < b → a < (a / b + 1) * b.
Proof.
  intros Hb. pose proof (Nat.div_mod_eq a b).
  pose proof (Nat.mod_upper_bound a b). nia.
Qed.

(** X14: what [adjustCellSize] computes.  Without a container or without a
    line the cell size is left as it is.  With both, and a first line that is
    not empty, the new size is a number, at least 10; when it is more than
    10, as many cells as the first line has fit into the container's width
    and as many as there are lines into its height, one pixel more would not
    fit, and on a rectangular text every cell's tile lies within the
    container while the tiles of different cells share no point.  With an
    empty first line the width does not
    count, and when the container's width is 0 as well the result is [NaN]:
    the minimum of 10 is not ensured then. *)
Theorem cell_size_fits (box : Container) (m : list string) (row0 : string)
    (old : jsnum) :
  m !! 0 = Some row0 →
  adjustCellSize None m old = old
  ∧ adjustCellSize (Some box) [] old = old
  ∧ (0 < length (split_chars row0) →
     ∃ n, adjustCellSize (Some box) m old = Num n
       ∧ 10 ≤ n
       ∧ (10 < n →
          n * length (split_chars row0) ≤ clientWidth box
          ∧ n * length m ≤ clientHeight box
          ∧ (clientWidth box < (n + 1) * length (split_chars row0)
             ∨ clientHeight box < (n + 1) * length m)
          ∧ (rectangular m → ∀ w s e c c',
               in_grid (buildGrid w s e m) c →
               in_grid (buildGrid w s e m) c' →
               tile_inside (cell_tile c n) box
               ∧ (c ≠ c' → tiles_disjoint (cell_tile c n) (cell_tile c' n)))))
  ∧ (length (split_chars row0) = 0 →
     (clientWidth box = 0 → adjustCellSize (Some box) m old = NaN)
     ∧ (0 < clientWidth box →
        adjustCellSize (Some box) m old
        = Num ((clientHeight box / length m) `max` 10))).
Proof.
  intros Hrow0. destruct m as [|r m']; [done|]. simpl in Hrow0. injection Hrow0 as ->.
  split; [done|]. split; [done|].
  assert (Hh : 0 < length (row0 :: m')) by (simpl; lia).
  unfold adjustCellSize. rewrite (floor_div_pos _ _ Hh).
  split.
  - intros Hw. rewrite (floor_div_pos _ _ Hw).
    pose proof (div_maximal (clientWidth box) _ Hw) as Hmw.
    pose proof (div_maximal (clientHeight box) _ Hh) as Hmh.
    pose proof (λ n, div_fits (clientWidth box) _ n Hw) as Hfitw.
    pose proof (λ n, div_fits (clientHeight box) _ n Hh) as Hfith.
    remember (clientWidth box / length (split_chars row0)) as qw eqn:Hqw.
    remember (clientHeight box / length (row0 :: m')) as qh eqn:Hqh.
    clear Hqw Hqh. cbn [math_max math_min].
    exists ((qw `min` qh) `max` 10). split; [reflexivity|]. split; [lia|]. intros Hn.
    assert (Hmin : (qw `min` qh) `max` 10 = qw `min` qh) by lia.
    rewrite Hmin in *.
    assert (Hfw : (qw `min` qh) * length (split_chars row0) ≤ clientWidth box).
    { apply Hfitw. lia. }
    assert (Hfh : (qw `min` qh) * length (row0 :: m') ≤ clientHeight box).
    { apply Hfith. lia. }
    split; [done|]. split; [done|]. split.
    + destruct (Nat.min_spec qw qh) as [[_ Hm]|[_ Hm]];
        rewrite Hm; [by left|by right].
    + intros Hrect w s e c c' Hc Hc'.
      assert (Hbound : ∀ c0, in_grid (buildGrid w s e (row0 :: m')) c0 →
                x c0 < length (split_chars row0) ∧ y c0 < length (row0 :: m')).
      { intros c0 Hc0.
        destruct (rectangular_first_row w s e _ c0 Hrect Hc0) as (g0 & Hg0 & Hx).
        rewrite buildGrid_lookup in Hg0. simpl in Hg0. injection Hg0 as <-.
        rewrite length_imap in Hx. split; [done|].
        destruct (in_grid_lookup _ _ Hc0) as (row & Hrow & _).
        apply lookup_lt_Some in Hrow. by rewrite buildGrid_length in Hrow. }
      split.
      * destruct (Hbound c Hc) as [Hx Hy]. unfold tile_inside. simpl. nia.
      * intros Hne. unfold tiles_disjoint. simpl.
        assert (x c ≠ x c' ∨ y c ≠ y c') as Hpos.
        { destruct (decide (x c = x c')) as [Hx|?]; [|by left].
          destruct (decide (y c = y c')) as [Hy|?]; [|by right].
          destruct Hne. by eapply in_grid_same_pos. }
        nia.
  - intros Hw. rewrite Hw. unfold floor_div. change (0 =? 0) with true. cbv iota.
    split.
    + intros ->. reflexivity.
    + intros Hc. destruct (clientWidth box =? 0) eqn:E; [apply Nat.eqb_eq in E; lia|].
      reflexivity.
Qed.

Lemma cell_size_fits_witness :
  ∃ n, adjustCellSize (Some (mkContainer 400 300)) (maze demo) (Num 30) = Num n
    ∧ 10 ≤ n
    ∧ (10 < n →
       n * length (split_chars "###") ≤ 400
       ∧ n * length (maze demo) ≤ 300
       ∧ (400 < (n + 1) * length (split_chars "###")
          ∨ 300 < (n + 1) * length (maze demo))
       ∧ (rectangular (maze demo) → ∀ w s e c c',
            in_grid (buildGrid w s e (maze demo)) c →
            in_grid (buildGrid w s e (maze demo)) c' →
            tile_inside (cell_tile c n) (mkContainer 400 300)
            ∧ (c ≠ c' → tiles_disjoint (cell_tile c n) (cell_tile c' n)))).
Proof.
  destruct (cell_size_fits (mkContainer 400 300) (maze demo) "###" (Num 30))
    as (_ & _ & H & _).
  - reflexivity.
  - apply H. simpl. lia.
Defined.

Example demo_cell_size :
  adjustCellSize (Some (mkContainer 400 300)) (maze demo) (Num 30) = Num 75
  ∧ adjustCellSize (Some (mkContainer 20 300)) (maze demo) (Num 30) = Num 10
  ∧ adjustCellSize (Some (mkContainer 0 300)) [EmptyString] (Num 30) = NaN.
Proof. by repeat split. Qed.

(** ** Which shortest path is found *)

Lemma lex_lt_trans P Q R : lex_lt P Q → lex_lt Q R → lex_lt P R.
Proof.
  revert Q R. induction P as [|d P IH]; intros [|d' Q] [|d'' R]; simpl; try done.
  intros [?|[-> ?]] [?|[-> ?]]; [left; lia|by left|by left|].
  right. split; [done|]. by eapply IH.
Qed.

Lemma lex_le_lt_trans P Q R : lex_lt P Q → lex_le Q R → lex_lt P R.
Proof. intros HPQ [<-|HQR]; [done|by eapply lex_lt_trans]. Qed.

Lemma lex_lt_app P Q X Y :
  length P = length Q → lex_lt P Q → lex_lt (P ++ X) (Q ++ Y).
Proof.
  revert Q. induction P as [|d P IH]; intros [|d' Q]; simpl; try done.
  intros [= Hlen] [?|[-> ?]]; [by left|]. right. split; [done|]. by apply IH.
Qed.

Lemma lex_lt_snoc P d d' :
  dir_index d < dir_index d' → lex_lt (P ++ [d]) (P ++ [d']).
Proof. intros Hlt. induction P as [|d0 P IH]; simpl; [by left|]. by right. Qed.

Lemma increasing_app l1 l2 :
  increasing (l1 ++ l2) ↔
  increasing l1 ∧ increasing l2 ∧ ∀ P Q, P ∈ l1 → Q ∈ l2 → lex_lt P Q.
Proof.
  induction l1 as [|P l1 IH]; simpl.
  - split; [intros ?; split_and!; [done|done|]|tauto].
    intros P Q HP. by apply elem_of_nil in HP.
  - rewrite IH. split.
    + intros (Hhd & Hl1 & Hl2 & Hcross). split_and!; try done.
      * intros Q HQ. apply Hhd, elem_of_app. by left.
      * intros P' Q [->|HP']%elem_of_cons HQ; [|by apply Hcross].
        apply Hhd, elem_of_app. by right.
    + intros ((Hhd & Hl1) & Hl2 & Hcross). split_and!; try done.
      * intros Q [HQ|HQ]%elem_of_app; [by apply Hhd|]. apply Hcross; [by left|done].
      * intros P' Q HP' HQ. apply Hcross; [by right|done].
Qed.

Lemma leads_inv_snoc g s L d c' :
  leads g s (L ++ [d]) c' →
  ∃ c, leads g s L c ∧ getNextCell g c d = Val (Some c') ∧ type c' ≠ Wall.
Proof.
  inversion 1 as [Hnil|L0 c d0 c0 HL Hnext Hnw Heq]; subst.
  - by destruct L.
  - apply app_inj_tail in Heq as [-> ->]. eauto.
Qed.

Lemma leads_reach g s L c : leads g s L c → reach g s (length L) c.
Proof.
  induction 1 as [|L c d c' _ IH Hnext Hnw]; [constructor|].
  rewrite length_app. simpl. rewrite Nat.add_1_r.
  econstructor; [exact IH|]. by exists d.
Qed.

(** A sequence of directions leads to one cell only. *)
Lemma leads_det g s L c c' : leads g s L c → leads g s L c' → c = c'.
Proof.
  intros H. revert c'. induction H as [|L c d c1 HL IH Hnext Hnw]; intros c'.
  - inversion 1 as [|L0 ? ? ? ? ? ? Heq]; [done|]. by destruct L0.
  - intros (c2 & HL2 & Hnext2 & _)%leads_inv_snoc.
    rewrite <- (IH c2 HL2) in Hnext2. congruence.
Qed.

Lemma derived_leads g mk s ds n : derived g mk s ds n → leads g s ds (cell n).
Proof.
  induction 1 as [|ds d n m _ IH (Hnext & Hnw & _)]; [constructor|].
  by econstructor.
Qed.

Lemma try_direction_order g mk n d v q :
  wf_grid g → same_shape v g → in_grid g (cell n) →
  ∃ v' new, try_direction g mk n d (v, q) = Val (v', q ++ new)
    ∧ same_shape v' g
    ∧ length new ≤ 1
    ∧ (∀ m, m ∈ new → child g mk d n m ∧ visited_at v (cell m) = false)
    ∧ (∀ c, visited_at v' c = true ↔
            visited_at v c = true
            ∨ ∃ m, m ∈ new ∧ x c = x (cell m) ∧ y c = y (cell m))
    ∧ (∀ c', getNextCell g (cell n) d = Val (Some c') → type c' ≠ Wall →
             visited_at v' c' = true).
Proof.
  intros Hwf Hs Hn. unfold try_direction.
  destruct (getNextCell_no_throw g (cell n) d Hn) as [r Hr]. rewrite Hr. simpl.
  assert (Hnone :
    (∀ c', r = Some c' → type c' ≠ Wall → visited_at v c' = true) →
    ∃ v' new, Val (v, q) = Val (v', q ++ new) ∧ same_shape v' g
      ∧ length new ≤ 1
      ∧ (∀ m, m ∈ new → child g mk d n m ∧ visited_at v (cell m) = false)
      ∧ (∀ c, visited_at v' c = true ↔
              visited_at v c = true
              ∨ ∃ m, m ∈ new ∧ x c = x (cell m) ∧ y c = y (cell m))
      ∧ (∀ c', Val r = Val (Some c') → type c' ≠ Wall → visited_at v' c' = true)).
  { intros Hall. exists v, []. rewrite app_nil_r. split_and!; try done.
    - simpl. lia.
    - intros m Hm. by apply elem_of_nil in Hm.
    - intros c. split; [by left|].
      intros [?|(m & Hm & _)]; [done|]. by apply elem_of_nil in Hm.
    - intros c' [= ->]. by apply Hall. }
  destruct r as [c'|]; [|by apply Hnone].
  destruct (getNextCell_Some _ _ _ _ Hwf Hr) as [Hc' _].
  rewrite (read_visited_shape _ _ _ Hs Hc'). simpl.
  destruct (visited_at v c') eqn:Hseen; simpl.
  { apply Hnone. by intros ? [= <-]. }
  destruct (is_wall (type c')) eqn:Hw; simpl.
  { apply Hnone. intros ? [= <-] Hnw. apply is_wall_false in Hnw. congruence. }
  apply is_wall_false in Hw.
  destruct (mark_visited_shape _ _ _ Hs Hc') as (v' & -> & Hs' & Hvis & Hcnt).
  simpl. eexists v', [_]. split_and!; try done.
  - intros m ->%list_elem_of_singleton. by repeat split.
  - intros c. rewrite Hvis. case_decide as Hc.
    + split; [|done]. intros _. right. eexists. split; [by apply list_elem_of_singleton|].
      simpl. tauto.
    + split; [by left|]. intros [?|(m & ->%list_elem_of_singleton & ? & ?)]; [done|].
      simpl in *. tauto.
  - intros ? [= <-] _. rewrite Hvis. by rewrite decide_True.
Qed.

(** The [for ... of directions] loop, with the order of its pushes: the new
    entries come in the order of the directions, each on a cell that was not
    marked and that no earlier direction leads to. *)
Lemma for_of_directions_order g mk n P ds v q :
  wf_grid g → same_shape v g → in_grid g (cell n) → dirs_sorted ds →
  ∃ v' (new : list (Direction * QEntry)),
    for_of (try_direction g mk n) ds (v, q) = Val (v', q ++ new.*2)
    ∧ same_shape v' g
    ∧ (∀ d m, (d, m) ∈ new →
         d ∈ ds ∧ child g mk d n m ∧ visited_at v (cell m) = false
         ∧ ∀ d', d' ∈ ds → dir_index d' < dir_index d →
                 getNextCell g (cell n) d' ≠ Val (Some (cell m)))
    ∧ increasing ((λ dm, P ++ [dm.1]) <$> new)
    ∧ (∀ c, visited_at v' c = true ↔
            visited_at v c = true
            ∨ ∃ m, m ∈ new.*2 ∧ x c = x (cell m) ∧ y c = y (cell m))
    ∧ (∀ d c', d ∈ ds → getNextCell g (cell n) d = Val (Some c') → type c' ≠ Wall →
               visited_at v' c' = true).
Proof.
  intros Hwf Hs Hn. revert v q Hs.
  induction ds as [|d0 ds IH]; intros v q Hs Hsorted.
  - exists v, []. simpl. rewrite app_nil_r. split_and!; try done.
    + intros d m Hm. by apply elem_of_nil in Hm.
    + intros c. split; [by left|].
      intros [?|(m & Hm & _)]; [done|]. by apply elem_of_nil in Hm.
    + intros ?? Hd. by apply elem_of_nil in Hd.
  - destruct Hsorted as [Hd0 Hsorted]. simpl.
    destruct (try_direction_order g mk n d0 v q Hwf Hs Hn)
      as (v1 & new1 & -> & Hs1 & Hlen1 & Hch1 & Hvis1 & Hall1).
    simpl.
    destruct (IH v1 (q ++ new1) Hs1 Hsorted)
      as (v2 & new2 & -> & Hs2 & Hch2 & Hinc2 & Hvis2 & Hall2).
    exists v2, ((pair d0 <$> new1) ++ new2).
    assert (Hsnd : (pair d0 <$> new1).*2 = new1).
    { clear. induction new1 as [|a l IH]; [done|]. rewrite !fmap_cons. by f_equal. }
    split_and!.
    + by rewrite fmap_app, Hsnd, app_assoc.
    + done.
    + intros d m [Hm|Hm]%elem_of_app.
      * apply list_elem_of_fmap in Hm as (m' & [= -> ->] & Hm').
        destruct (Hch1 m' Hm') as [Hc Hfresh].
        split_and!; [by left|done|done|].
        intros d' [->|Hd']%elem_of_cons Hlt; [lia|]. specialize (Hd0 d' Hd'). lia.
      * destruct (Hch2 d m Hm) as (Hd & Hc & Hfresh & Hfirst).
        assert (Hfresh0 : visited_at v (cell m) = false).
        { destruct (visited_at v (cell m)) eqn:E; [|done].
          rewrite <- Hfresh. symmetry. apply Hvis1. by left. }
        split_and!; [by right|done|done|].
        intros d' [->|Hd']%elem_of_cons Hlt; [|by apply Hfirst].
        intros Hnext. destruct Hc as (_ & Hnw & _).
        rewrite (Hall1 _ Hnext Hnw) in Hfresh. done.
    + rewrite fmap_app. apply increasing_app. split_and!.
      * destruct new1 as [|a [|b l]]; simpl in *; [done| |lia].
        split; [|done]. intros Q HQ. by apply elem_of_nil in HQ.
      * done.
      * intros P1 P2 HP1 HP2.
        apply list_elem_of_fmap in HP1 as (dm1 & -> & Hdm1).
        apply list_elem_of_fmap in Hdm1 as (m1 & -> & _).
        apply list_elem_of_fmap in HP2 as ([d2 m2] & -> & Hdm2).
        simpl. apply lex_lt_snoc. apply Hd0. by destruct (Hch2 d2 m2 Hdm2).
    + intros c. rewrite Hvis2, Hvis1, fmap_app, Hsnd. split.
      * intros [[?|(m & ? & ?)]|(m & ? & ?)]; [by left| |];
          right; exists m; (split; [apply elem_of_app; auto|done]).
      * intros [?|(m & [?|?]%elem_of_app & ?)];
          [by left; left|left; right; eauto|right; eauto].
    + intros d' c' [->|Hd]%elem_of_cons Hnext Hnw.
      * apply Hvis2. left. by eapply Hall1.
      * by eapply Hall2.
Qed.

Lemma relabel_snd (P : list Direction) (new : list (Direction * QEntry)) :
  ((λ dm, (P ++ [dm.1], dm.2)) <$> new).*2 = new.*2.
Proof. induction new as [|a l IH]; [done|]. rewrite !fmap_cons. by f_equal. Qed.

Lemma relabel_fst (P : list Direction) (new : list (Direction * QEntry)) :
  ((λ dm, (P ++ [dm.1], dm.2)) <$> new).*1 = (λ dm, P ++ [dm.1]) <$> new.
Proof. induction new as [|a l IH]; [done|]. rewrite !fmap_cons. by f_equal. Qed.

Lemma tie_inv_next_level g mk s e D d B v :
  tie_inv_at g mk s e D d [] B v → tie_inv_at g mk s e D (S d) B [] v.
Proof.
  intros (Hbfs & Hder & _ & HincB & _ & Hmin & Hmark).
  unfold tie_inv_at. rewrite app_nil_r. split_and!; try done.
  - by apply bfs_inv_next_level.
  - intros Pb HPb. by apply elem_of_nil in HPb.
Qed.

Lemma tie_inv_front g mk s e v n rest :
  tie_inv g mk s e v (n :: rest) →
  ∃ D d P A B, rest = (A ++ B).*2 ∧ tie_inv_at g mk s e D d ((P, n) :: A) B v.
Proof.
  intros (D & d & A & B & Hq & Hinv).
  destruct A as [|[P n'] A].
  - destruct B as [|[P n'] B]; [done|]. simpl in Hq. injection Hq as -> ->.
    exists D, (S d), P, B, []. rewrite app_nil_r. split; [done|].
    by apply tie_inv_next_level.
  - simpl in Hq. injection Hq as -> ->. by exists D, d, P, A, B.
Qed.

(** Expanding the front entry keeps the order of the queue and the
    minimality of its sequences. *)
Lemma tie_inv_expand g mk s e D d P n A B v v' (new : list (Direction * QEntry)) :
  wf_grid g →
  tie_inv_at g mk s e D d ((P, n) :: A) B v →
  same_pos (cell n) e = false →
  same_shape v' g →
  (∀ d' m, (d', m) ∈ new →
     d' ∈ directions ∧ child g mk d' n m ∧ visited_at v (cell m) = false
     ∧ ∀ d'', d'' ∈ directions → dir_index d'' < dir_index d' →
              getNextCell g (cell n) d'' ≠ Val (Some (cell m))) →
  increasing ((λ dm, P ++ [dm.1]) <$> new) →
  (∀ c, visited_at v' c = true ↔
        visited_at v c = true
        ∨ ∃ m, m ∈ new.*2 ∧ x c = x (cell m) ∧ y c = y (cell m)) →
  (∀ d' c', d' ∈ directions → getNextCell g (cell n) d' = Val (Some c') →
            type c' ≠ Wall → visited_at v' c' = true) →
  tie_inv_at g mk s e (λ c, D c ∨ c = cell n) d A
    (B ++ ((λ dm, (P ++ [dm.1], dm.2)) <$> new)) v'.
Proof.
  intros Hwf (Hbfs & Hder & HincA & HincB & Hpre & Hmin & Hmark)
    Hne Hs' Hnew Hincnew Hvis' Hall.
  pose proof Hbfs as (HA & _ & _ & _ & Hd & _).
  rewrite fmap_cons in HA, Hd. simpl in HA, Hd.
  assert (HderP : derived g mk s P n).
  { apply Hder. by left. }
  assert (HlenP : length P = d).
  { rewrite <- (derived_depth _ _ _ _ _ HderP). apply HA. by left. }
  destruct HincA as [HheadA HincA]. simpl in HheadA.
  unfold tie_inv_at. rewrite !fmap_app, relabel_snd, relabel_fst. split_and!.
  - apply (bfs_inv_expand g mk s e D d n (A.*2) (B.*2) v v' (new.*2)); try done.
    intros m (dm & -> & Hdm)%list_elem_of_fmap. destruct dm as [d' m].
    exists d'. by destruct (Hnew d' m Hdm) as (_ & ? & _).
  - intros Q m. rewrite app_assoc. intros [Hm|Hm]%elem_of_app.
    + apply Hder. by right.
    + apply list_elem_of_fmap in Hm as ([d' m'] & [= -> ->] & Hdm).
      destruct (Hnew d' m' Hdm) as (_ & Hc & _). by econstructor.
  - done.
  - apply increasing_app. split_and!; [done|done|].
    intros Pb Pn HPb (dm & -> & _)%list_elem_of_fmap.
    destruct (Hpre Pb HPb) as (P' & d' & -> & Hlen' & Hlt).
    apply lex_lt_app; [lia|]. apply Hlt. by left.
  - intros Pb [HPb|HPb]%elem_of_app.
    + destruct (Hpre Pb HPb) as (P' & d' & -> & Hlen' & Hlt).
      exists P', d'. split_and!; [done|done|]. intros Pa HPa. apply Hlt. by right.
    + apply list_elem_of_fmap in HPb as (dm & -> & _).
      exists P, dm.1. split_and!; [done|done|]. exact HheadA.
  - intros Q m. rewrite app_assoc. intros [Hm|Hm]%elem_of_app.
    { apply Hmin. by right. }
    apply list_elem_of_fmap in Hm as ([dm m'] & [= -> ->] & Hdm).
    destruct (Hnew dm m' Hdm) as (_ & (_ & Hnw & _) & Hfresh & Hfirst).
    intros L HlenL HL. rewrite length_app in HlenL. simpl in HlenL.
    destruct L as [|d' Q _] using rev_ind; [simpl in HlenL; lia|].
    rewrite length_app in HlenL. simpl in HlenL.
    apply leads_inv_snoc in HL as (u & HQ & Hnext & _).
    assert (HlenQ : length Q = d) by lia.
    pose proof (leads_reach _ _ _ _ HQ) as Hr. rewrite HlenQ in Hr.
    assert (HPQ : lex_le P Q → lex_le (P ++ [dm]) (Q ++ [d'])
                              ∨ (Q = P ∧ dir_index d' < dir_index dm)).
    { intros [->|Hlt].
      - destruct (Nat.lt_trichotomy (dir_index dm) (dir_index d')) as [?|[Heq|?]].
        + left. right. by apply lex_lt_snoc.
        + left. left. by rewrite (dir_index_inj _ _ Heq).
        + by right.
      - left. right. apply lex_lt_app; [lia|done]. }
    destruct (Hd u Hr) as [HDu|(nu & [->|Hnu]%elem_of_cons & Hcell)].
    + assert (visited_at v (cell m') = true); [|congruence].
      apply (Hmark u); [done|]. by exists d'.
    + assert (HleP : lex_le P Q).
      { apply (Hmin P n); [by left|lia|by rewrite Hcell]. }
      destruct (HPQ HleP) as [?|[-> Hlt]]; [done|].
      destruct (Hfirst d'); [by destruct d'; repeat constructor|done|].
      rewrite Hcell. assert (u = cell n) as -> by done. exact Hnext.
    + apply list_elem_of_fmap in Hnu as ([Pu nu'] & -> & Hpu). simpl in *.
      assert (Hderu : derived g mk s Pu nu') by (apply Hder; right; apply elem_of_app; by left).
      assert (HlenPu : length Pu = d).
      { rewrite <- (derived_depth _ _ _ _ _ Hderu). apply HA. right.
        apply list_elem_of_fmap. by exists (Pu, nu'). }
      assert (lex_le Pu Q).
      { apply (Hmin Pu nu'); [right; apply elem_of_app; by left|lia|by rewrite Hcell]. }
      right. apply lex_lt_app; [lia|]. eapply lex_le_lt_trans; [|done].
      apply HheadA. apply list_elem_of_fmap. by exists (Pu, nu').
  - intros c c' [HD| ->] Hstep.
    + apply Hvis'. left. by eapply Hmark.
    + destruct Hstep as (d' & Hnext & Hnw). eapply Hall; [|done..].
      destruct d'; repeat constructor.
Qed.

Lemma directions_sorted : dirs_sorted directions.
Proof.
  unfold directions. simpl. split_and!; try done;
    intros d' Hd';
    repeat (apply elem_of_cons in Hd' as [->|Hd']; [simpl; lia|]);
    by apply elem_of_nil in Hd'.
Qed.

Lemma tie_inv_initial g mk s e m :
  in_grid g s → same_shape (init_visited m) g →
  tie_inv g mk s e (init_visited m) [ {| cell := s; path := [s]; moves := [] |} ].
Proof.
  intros Hs Hshape.
  exists (λ _, False), 0, [([], {| cell := s; path := [s]; moves := [] |})], [].
  split; [done|]. unfold tie_inv_at. split_and!; try done.
  - unfold bfs_inv_at. simpl. split_and!; try done.
    + by intros n ->%list_elem_of_singleton.
    + intros n Hn. by apply elem_of_nil in Hn.
    + intros n ->%list_elem_of_singleton. split; [done|]. eexists. constructor.
    + intros k c Hk. lia.
    + intros c Hr. inversion Hr; subst. right. eexists. split; [by constructor|done].
    + intros c _. by rewrite visited_at_init.
  - intros P n [= -> ->]%list_elem_of_singleton. constructor.
  - simpl. split; [|done]. intros Q HQ. by apply elem_of_nil in HQ.
  - intros Pb HPb. by apply elem_of_nil in HPb.
  - intros P n [= -> ->]%list_elem_of_singleton L HL _.
    left. by destruct L.
Qed.

(** Whenever the loop ends with a path, the directions of that path come
    first, in dictionary order, among all sequences of the same length that
    lead to the cell it ends on. *)
Lemma bfs_loop_first g mk s e :
  wf_grid g →
  ∀ fuel v q p m,
    tie_inv g mk s e v q →
    bfs_loop fuel g mk e v q = Found p m →
    ∃ P n, derived g mk s P n ∧ in_grid g (cell n)
      ∧ path n = p ∧ moves n = m ∧ same_pos (cell n) e = true
      ∧ ∀ L, length L = length P → leads g s L (cell n) → lex_le P L.
Proof.
  intros Hwf. induction fuel as [|fuel IH]; intros v q p m Hinv; [done|].
  destruct q as [|n rest]; cbn [bfs_loop loop_body]; [done|].
  destruct (tie_inv_front _ _ _ _ _ _ _ Hinv) as (D & d & P & A & B & -> & Hat).
  pose proof Hat as (Hbfs & Hder & _ & _ & _ & Hmin & _).
  pose proof Hbfs as (_ & _ & Hok & _ & _ & _ & _ & _ & Hs).
  destruct (Hok n) as [Hn _]; [by left|].
  destruct (same_pos (cell n) e) eqn:Hpos.
  - intros [= <- <-]. exists P, n. split_and!; try done.
    + apply Hder. by left.
    + apply Hmin. by left.
  - destruct (for_of_directions_order g mk n P directions v ((A ++ B).*2)
                Hwf Hs Hn directions_sorted)
      as (v' & new & -> & Hs' & Hnew & Hinc & Hvis & Hall).
    simpl. apply IH.
    exists (λ c, D c ∨ c = cell n), d, A, (B ++ ((λ dm, (P ++ [dm.1], dm.2)) <$> new)).
    split; [by rewrite app_assoc, !fmap_app, relabel_snd|].
    by eapply tie_inv_expand.
Qed.

(** X15: of several shortest ways the solve returns the first in dictionary
    order.  The moves of a successful solve are the keys of a sequence of
    directions that leads from the start to the end; no sequence that leads
    there is shorter, and among those of the same length it comes first in
    the dictionary order in which up precedes down, down precedes left and
    left precedes right. *)
Theorem solve_returns_first_shortest (sess s' : Session) (p : list Cell)
    (m : list string) :
  synced (ui sess) → solveMaze sess = (s', Found p m) →
  ∃ s e ds,
    start (ui sess) = Some s ∧ end_ (ui sess) = Some e
    ∧ m = map (getKeyForDirection (moveKeys (ui sess))) ds
    ∧ leads (mazeGrid (ui sess)) s ds e
    ∧ ∀ L, leads (mazeGrid (ui sess)) s L e →
           length ds ≤ length L ∧ (length L = length ds → lex_le ds L).
Proof.
  intros Hsy (Hf & _)%solveMaze_Found.
  destruct (search_Found_endpoints _ _ _ Hf) as (s & e & Hs & He).
  pose proof (synced_wf _ Hsy) as Hwf.
  destruct (synced_start _ _ Hsy Hs) as [Hsg _].
  destruct (synced_end _ _ Hsy He) as [Heg _].
  destruct (search_correct _ _ _ Hsy Hs He)
    as [[Hn _]|(ds' & p' & m' & Hf' & Hder' & Hshort)]; [congruence|].
  rewrite Hf in Hf'. injection Hf' as <- <-.
  destruct (derived_facts _ _ _ _ _ Hder') as (_ & _ & _ & Hm'). simpl in Hm'.
  unfold search in Hf. rewrite Hs, He in Hf.
  destruct (bfs_loop_first _ (moveKeys (ui sess)) s e Hwf _ _ _ p m
              (tie_inv_initial _ _ s e (maze (ui sess)) Hsg (synced_shape _ Hsy)) Hf)
    as (P & n & Hder & Hn & Hp & Hm & Hpos & Hmin).
  apply same_pos_true in Hpos as [Hx Hy].
  pose proof (in_grid_same_pos _ _ _ Hn Heg Hx Hy) as Hcell.
  destruct (derived_facts _ _ _ _ _ Hder) as (_ & _ & _ & HmP).
  pose proof (derived_leads _ _ _ _ _ Hder) as Hleads. rewrite Hcell in *.
  assert (Hlen : length P = length ds').
  { rewrite <- (length_map (getKeyForDirection (moveKeys (ui sess))) P).
    rewrite <- HmP, Hm, Hm'. by rewrite length_map. }
  exists s, e, P. split_and!; try done.
  - by rewrite <- Hm, HmP.
  - intros L HL. split; [|intros HlenL; by apply Hmin].
    rewrite Hlen. apply Hshort. by apply leads_reach.
Qed.

Lemma solve_returns_first_shortest_witness :
  ∃ s e ds,
    start demo = Some s ∧ end_ demo = Some e
    ∧ ["s"; "d"] = map (getKeyForDirection (moveKeys demo)) ds
    ∧ leads (mazeGrid demo) s ds e
    ∧ ∀ L, leads (mazeGrid demo) s L e →
           length ds ≤ length L ∧ (length L = length ds → lex_le ds L).
Proof.
  apply (solve_returns_first_shortest (mkSession demo [])
           (solveMaze (mkSession demo [])).1 demoPath ["s"; "d"]).
  - repeat split.
  - reflexivity.
Defined.

(** ** Termination of the search *)

Lemma cell_count_text_size m : cell_count m = text_size m.
Proof.
  unfold cell_count, text_size, init_visited.
  induction m as [|row m IH]; [done|]. simpl.
  by rewrite length_app, length_map, IH.
Qed.

(** X16: the search loop ends.  In a state left by the effect with both
    endpoints present, twice the number of characters of the text plus two
    iterations are never used up: with that bound, or any larger one, the
    loop gives the outcome of the solve, which is a path or the notice that
    there is none. *)
Theorem search_loop_terminates (st : State) (s e : Cell) (fuel : nat) :
  synced st → start st = Some s → end_ st = Some e →
  2 * text_size (maze st) + 2 ≤ fuel →
  bfs_loop fuel (mazeGrid st) (moveKeys st) e (init_visited (maze st))
    [ {| cell := s; path := [s]; moves := [] |} ]
  = search st
  ∧ (search st = NoPathFound ∨ ∃ p m, search st = Found p m).
Proof.
  intros Hsy Hs He Hfuel.
  destruct (search_fuel_enough st s e fuel Hsy Hs He) as (_ & _ & Heq).
  { unfold search_fuel. rewrite cell_count_text_size. lia. }
  split; [done|].
  destruct (search_correct _ _ _ Hsy Hs He) as [[-> _]|(ds & p & m & -> & _)];
    [by left|right; eauto].
Qed.

Lemma search_loop_terminates_witness :
  bfs_loop 1000 (mazeGrid demo) (moveKeys demo) (mkCell 2 2 End)
    (init_visited (maze demo))
    [ {| cell := mkCell 1 1 Start; path := [mkCell 1 1 Start]; moves := [] |} ]
  = search demo
  ∧ (search demo = NoPathFound ∨ ∃ p m, search demo = Found p m).
Proof.
  apply (search_loop_terminates demo (mkCell 1 1 Start) (mkCell 2 2 End) 1000).
  - repeat split.
  - reflexivity.
  - reflexivity.
  - vm_compute. lia.
Defined.

(** ** Typing the solution *)

Lemma key_direction_own_binding mk d :
  keys_lower mk → keys_distinct mk →
  key_direction mk (toLowerCase (getKeyForDirection mk d)) = Some d.
Proof. intros Hlow Hdis. rewrite Hlow. by apply key_direction_binding. Qed.

(** The keys of a sequence of directions, typed with the cursor on the cell
    the sequence starts from, move the cursor to the cell it leads to. *)
Lemma typed_directions sess s ds c :
  leads (mazeGrid (ui sess)) s ds c →
  keys_lower (moveKeys (ui sess)) → keys_distinct (moveKeys (ui sess)) →
  isAnimating (ui sess) = false → currentPos (ui sess) = Some s →
  run sess (map KeyPress (map (getKeyForDirection (moveKeys (ui sess))) ds))
  = {| ui := setCurrentPos (Some c) (ui sess); pending := pending sess |}.
Proof.
  intros Hleads Hlow Hdis Han Hcur.
  induction Hleads as [|L c d c' _ IH Hnext Hnw].
  - change (run sess _) with sess.
    by rewrite (setCurrentPos_same _ _ Hcur), session_eta.
  - rewrite !map_app. simpl. rewrite run_snoc, IH. simpl.
    unfold handleKeyPress. simpl.
    rewrite Han, (key_direction_own_binding _ d Hlow Hdis), Hnext. simpl.
    apply is_wall_false in Hnw. by rewrite Hnw.
Qed.

Lemma take_snoc_le {A} (l : list A) a i :
  i ≤ length l → take i (l ++ [a]) = take i l.
Proof. intros Hi. by rewrite take_app_le. Qed.

(** The first [i] directions of an entry lead to the [i]-th cell of its
    path. *)
Lemma derived_prefix_leads g mk s ds n :
  derived g mk s ds n →
  ∀ i c, path n !! i = Some c → leads g s (take i ds) c.
Proof.
  induction 1 as [|ds d n m Hn IH (Hnext & Hnw & Hp & _)]; intros i c.
  - simpl. intros [-> ->]%list_lookup_singleton_Some. constructor.
  - destruct (derived_facts _ _ _ _ _ Hn) as (_ & Hl & Hlen & _).
    rewrite Hp. intros [Hi|[Hge Hi]]%lookup_app_Some.
    + pose proof (lookup_lt_Some _ _ _ Hi). rewrite take_snoc_le by lia. by apply IH.
    + apply list_lookup_singleton_Some in Hi as [Hi <-].
      assert (i = S (length ds)) as -> by lia.
      rewrite take_ge by (rewrite length_app; simpl; lia).
      econstructor; [|done..]. by eapply derived_leads.
Qed.

(** X17: the solution string can be typed.  With lower-case, pairwise
    distinct bindings, no replay in progress and the cursor on the
    designated start, typing the first [i] moves of a successful solve puts
    the cursor on the [i]-th cell of the path; typing all of them puts it on
    the designated end. *)
Theorem solution_can_be_typed (sess : Session) (p : list Cell) (m : list string)
    (i : nat) (c : Cell) :
  synced (ui sess) →
  keys_lower (moveKeys (ui sess)) → keys_distinct (moveKeys (ui sess)) →
  isAnimating (ui sess) = false → currentPos (ui sess) = start (ui sess) →
  search (ui sess) = Found p m →
  (p !! i = Some c →
   currentPos (ui (run sess (map KeyPress (take i m)))) = Some c)
  ∧ currentPos (ui (run sess (map KeyPress m))) = end_ (ui sess).
Proof.
  intros Hsy Hlow Hdis Han Hcur Hf.
  destruct (search_Found_derived _ _ _ Hsy Hf) as (s & e & ds & Hs & He & Hder).
  destruct (derived_facts _ _ _ _ _ Hder) as (_ & _ & _ & Hm). simpl in Hm.
  rewrite Hs in Hcur. split.
  - intros Hi. pose proof (derived_prefix_leads _ _ _ _ _ Hder i c Hi) as Hl.
    rewrite Hm, List.firstn_map.
    by rewrite (typed_directions sess s _ c Hl Hlow Hdis Han Hcur).
  - pose proof (derived_leads _ _ _ _ _ Hder) as Hl. simpl in Hl.
    rewrite Hm, (typed_directions sess s _ e Hl Hlow Hdis Han Hcur). by rewrite He.
Qed.

(** The maze of the specification with the cursor put on the start. *)
Lemma solution_can_be_typed_witness :
  (demoPath !! 1 = Some (mkCell 1 2 Path) →
   currentPos
     (ui (run (mkSession (setCurrentPos (Some (mkCell 1 1 Start)) demo) [])
              (map KeyPress (take 1 ["s"; "d"]))))
   = Some (mkCell 1 2 Path))
  ∧ currentPos
      (ui (run (mkSession (setCurrentPos (Some (mkCell 1 1 Start)) demo) [])
               (map KeyPress ["s"; "d"])))
    = end_ demo.
Proof.
  apply (solution_can_be_typed
           (mkSession (setCurrentPos (Some (mkCell 1 1 Start)) demo) [])
           demoPath ["s"; "d"] 1 (mkCell 1 2 Path)).
  - repeat split.
  - intros []; reflexivity.
  - intros [] []; (reflexivity || discriminate).
  - reflexivity.
  - reflexivity.
  - reflexivity.
Defined.

(** ** An edit during a replay *)

(** X18: an edit of the text does not stop a replay in progress.  The
    suspended replay keeps applying the cells of the old path, one per timer,
    to the state that now holds the grid of the new text, whether or not that
    grid has such a cell. *)
Theorem edit_does_not_stop_replay (s : Session) (rest : list Cell) (value : string)
    (evs : list Event) (k : nat) :
  isAnimating (ui s) = true → pending s = [rest] →
  SolveClick ∉ evs → timer_count evs = S k → k < length rest →
  currentPos (ui (run (editText value s) evs)) = rest !! k
  ∧ maze (ui (run (editText value s) evs)) = split_lines value
  ∧ pending (run (editText value s) evs) = [drop (S k) rest].
Proof.
  intros Han Hp Hns Htc Hk.
  destruct (handleMazeInput_keeps value (ui s)) as (_ & _ & Han' & Hmaze).
  rewrite (replay_progress evs (editText value s) rest); try done.
  - rewrite Htc. by repeat split.
  - simpl. by rewrite Han'.
  - lia.
Qed.

Lemma edit_does_not_stop_replay_witness :
  currentPos (ui (run (editText "P.E" demoReplaying) [TimerFires; TimerFires]))
  = [mkCell 1 2 Path; mkCell 2 2 End] !! 1
  ∧ maze (ui (run (editText "P.E" demoReplaying) [TimerFires; TimerFires]))
    = split_lines "P.E"
  ∧ pending (run (editText "P.E" demoReplaying) [TimerFires; TimerFires])
    = [drop 2 [mkCell 1 2 Path; mkCell 2 2 End]].
Proof.
  apply (edit_does_not_stop_replay demoReplaying [mkCell 1 2 Path; mkCell 2 2 End]
           "P.E" [TimerFires; TimerFires] 1).
  - reflexivity.
  - reflexivity.
  - intros H. repeat (apply elem_of_cons in H as [H|H]; [discriminate|]).
    by apply elem_of_nil in H.
  - reflexivity.
  - simpl. lia.
Defined.

Example replay_leaves_new_grid :
  currentPos (ui (run (editText "P.E" demoReplaying) [TimerFires; TimerFires]))
  = Some (mkCell 2 2 End)
  ∧ cell_at (mazeGrid (ui (run (editText "P.E" demoReplaying) [TimerFires; TimerFires])))
      2 2 = None.
Proof. by split. Qed.

(** ** Bounds of [getNextCell] *)

(** X19: on the grid of a rectangular text, from a cell of the grid,
    [getNextCell] never throws and returns exactly the neighbour in the given
    direction: it returns a cell if and only if that cell is the cell of the
    grid one move away in that direction, and [null] at the border. *)
Theorem getNextCell_is_the_neighbour (w s e : string) (m : list string)
    (c : Cell) (d : Direction) :
  rectangular m → in_grid (buildGrid w s e m) c →
  ∃ r, getNextCell (buildGrid w s e m) c d = Val r
    ∧ (∀ c', r = Some c' ↔ in_grid (buildGrid w s e m) c' ∧ moved d c c')
    ∧ (r = None ↔ ∀ c', in_grid (buildGrid w s e m) c' → ¬ moved d c c').
Proof.
  intros Hrect Hc.
  destruct (getNextCell_no_throw (buildGrid w s e m) c d Hc) as [r Hr].
  exists r. split; [done|].
  assert (Hiff : ∀ c', r = Some c' ↔ in_grid (buildGrid w s e m) c' ∧ moved d c c').
  { intros c'. split.
    - intros ->. apply getNextCell_Some; [apply buildGrid_wf|done].
    - intros [Hc' Hm].
      assert (getNextCell (buildGrid w s e m) c d = Val (Some c')) as Hnext.
      { apply moved_getNextCell; try done. intros _. by apply rectangular_first_row. }
      congruence. }
  split; [done|]. split.
  - intros -> c' Hc' Hm. by assert (None = Some c') by by apply Hiff.
  - intros Hno. destruct r as [c'|]; [|done].
    destruct (proj1 (Hiff c') eq_refl) as [Hc' Hm]. by destruct (Hno c' Hc').
Qed.

Lemma getNextCell_is_the_neighbour_witness :
  ∃ r, getNextCell (buildGrid "#" "P" "E" (maze demo)) (mkCell 2 1 Path) Right = Val r
    ∧ (∀ c', r = Some c' ↔
             in_grid (buildGrid "#" "P" "E" (maze demo)) c'
             ∧ moved Right (mkCell 2 1 Path) c')
    ∧ (r = None ↔
       ∀ c', in_grid (buildGrid "#" "P" "E" (maze demo)) c' →
             ¬ moved Right (mkCell 2 1 Path) c').
Proof.
  apply (getNextCell_is_the_neighbour "#" "P" "E" (maze demo) (mkCell 2 1 Path) Right).
  - exists 3. repeat constructor.
  - reflexivity.
Defined.
